(** * Generic entity management: query utilities, in-memory strategy,
      manager fallback and the repository-style strategy.

    The development embeds the TypeScript sources
    [utils/query-utils.ts], [strategies/in-memory.strategy.ts],
    [management-entity.ts], [strategies/typeorm.strategy.ts] and
    [strategies/sql.strategy.ts].

    JavaScript arrays are mutable objects handled by reference, so they live
    in a store of arrays addressed by locations; every array method is a
    computation over that store.  A rejected promise is a [Fault].  The
    [async]/[await] of the sources is sequential here: every [await] is a
    bind. *)

From Stdlib Require Import ZArith QArith Qround Lia.
From stdpp Require Import base option list sorting gmap strings.

Close Scope Q_scope.
Open Scope Z_scope.

(** ** Computations with state and faults *)

Inductive Outcome (S E A : Type) : Type :=
| Ok (a : A) (s : S)
| Fault (e : E) (s : S).
Arguments Ok {S E A} a s.
Arguments Fault {S E A} e s.

Definition M (S E A : Type) : Type := S → Outcome S E A.

Global Instance M_ret {S E} : MRet (M S E) := λ A a s, Ok a s.

Global Instance M_bind {S E} : MBind (M S E) := λ A B k m s,
  match m s with
  | Ok a s' => k a s'
  | Fault e s' => Fault e s'
  end.

(** [try { body } catch { handler }]: the handler does not bind the
    exception value (the sources write [catch { ... }]). *)
Definition try_catch {S E A} (body handler : M S E A) : M S E A := λ s,
  match body s with
  | Ok a s' => Ok a s'
  | Fault _ s' => handler s'
  end.

(** ** Pure content of the array methods used by the sources *)

Section ArrayContents.
Context {T : Type}.

(** [Array.prototype.findIndex]: the first index whose element satisfies
    the callback, [-1] when there is none. *)
Fixpoint findIndex (p : T → bool) (a : list T) : Z :=
  match a with
  | [] => -1
  | x :: a' =>
      if p x then 0
      else let i := findIndex p a' in
           if i =? -1 then -1 else i + 1
  end.

(** [Array.prototype.slice(start, end)], with the relative-index rules of
    the language: a negative bound counts from the end, every bound is
    clamped to [0, length]. *)
Definition relative_index (len i : Z) : Z :=
  if i <? 0 then Z.max (len + i) 0 else Z.min i len.

Definition slice (a : list T) (start end_ : Z) : list T :=
  let len := Z.of_nat (length a) in
  let k := relative_index len start in
  let final := relative_index len end_ in
  take (Z.to_nat (final - k)) (drop (Z.to_nat k) a).

(** [Array.prototype.splice(start, deleteCount)] without inserted items. *)
Definition splice (a : list T) (start deleteCount : Z) : list T :=
  let len := Z.of_nat (length a) in
  let k := relative_index len start in
  let dc := Z.min (Z.max deleteCount 0) (len - k) in
  take (Z.to_nat k) a ++ drop (Z.to_nat (k + dc)) a.

(** [Array.prototype.sort(compareFn)].  The language requires the sort to
    be stable and leaves the order implementation-defined when the
    comparator is not consistent; for a consistent comparator the stable
    result is unique ([stable_sort_unique] below), so a stable insertion
    sort stands for it.  The comparator's number is read through its sign
    only, hence [Z].  Entities are values other than [undefined], which
    [sort] would move to the end without consulting the comparator. *)
Fixpoint sort_insert (compareFn : T → T → Z) (x : T) (l : list T) : list T :=
  match l with
  | [] => [x]
  | y :: l' =>
      if compareFn x y <=? 0 then x :: y :: l'
      else y :: sort_insert compareFn x l'
  end.

Definition sort (compareFn : T → T → Z) (a : list T) : list T :=
  foldr (sort_insert compareFn) [] a.
End ArrayContents.

(** [Math.ceil(a / b)] on integer-valued numbers.  The quotient is taken in
    the rationals: for an array length [a] and an integer [b ≥ 1] the
    floating-point quotient rounds to a value with the same ceiling. *)
Definition Math_ceil_div (a b : Z) : Z :=
  Qceiling (Qdiv (inject_Z a) (inject_Z b)).

(** ** The store of arrays *)

Definition loc := nat.

Section Core.
(** [T]: the entity type; [X]: whatever state a strategy keeps outside the
    arrays (a database, say); [Err]: the values a promise rejects with. *)
Context {T X Err : Type}.

Record World := mkWorld {
  arrays : list (list T);
  external : X;
}.

Local Abbreviation Comp := (M World Err).

Definition Array_read (l : loc) : Comp (list T) := λ w,
  Ok (default [] (arrays w !! l)) w.

Definition Array_write (l : loc) (a : list T) : Comp unit := λ w,
  Ok () (mkWorld (<[l := a]> (arrays w)) (external w)).

Definition Array_new (a : list T) : Comp loc := λ w,
  Ok (length (arrays w)) (mkWorld (arrays w ++ [a]) (external w)).

Definition Array_length (l : loc) : Comp Z :=
  a ← Array_read l; mret (Z.of_nat (length a)).

Definition Array_push (l : loc) (e : T) : Comp unit :=
  a ← Array_read l; Array_write l (a ++ [e]).

Definition Array_findIndex (l : loc) (p : T → bool) : Comp Z :=
  a ← Array_read l; mret (findIndex p a).

Definition Array_find (l : loc) (p : T → bool) : Comp (option T) :=
  a ← Array_read l; mret (List.find p a).

Definition Array_splice (l : loc) (start deleteCount : Z) : Comp unit :=
  a ← Array_read l; Array_write l (splice a start deleteCount).

(** [a[index] = e].  The only call site passes an index returned by
    [findIndex] and different from [-1], which is in range
    ([findIndex_range]); the growth of an array written past its end is
    therefore not modelled. *)
Definition Array_set (l : loc) (index : Z) (e : T) : Comp unit :=
  a ← Array_read l; Array_write l (<[Z.to_nat index := e]> a).

Definition Array_filter (l : loc) (p : T → bool) : Comp loc :=
  a ← Array_read l; Array_new (List.filter p a).

(** [[...a]] *)
Definition Array_spread (l : loc) : Comp loc :=
  a ← Array_read l; Array_new a.

(** [sort] works in place and returns the receiver. *)
Definition Array_sort (l : loc) (compareFn : T → T → Z) : Comp loc :=
  a ← Array_read l; _ ← Array_write l (sort compareFn a); mret l.

Definition Array_slice (l : loc) (start end_ : Z) : Comp loc :=
  a ← Array_read l; Array_new (slice a start end_).

(** ** types/query.ts

    [page] and [pageSize] name fields of both [PageResult] and
    [QueryOptions]; the latter's are [opt_page] and [opt_pageSize] here.
    An optional member is an [option].  Entities are immutable values: the
    arrays hold them, and only arrays are shared and mutated. *)

Definition Predicate := T → bool.

Record PageResult := mkPageResult {
  items : loc;
  page : Z;
  pageSize : Z;
  totalItems : Z;
  totalPages : Z;
  hasNext : bool;
  hasPrev : bool;
}.

Record QueryOptions := mkQueryOptions {
  opt_page : option Z;
  opt_pageSize : option Z;
  predicate : option Predicate;
  filters : option (list Predicate);
  sortBy : option (T → T → Z);
}.

(** ** utils/query-utils.ts *)

Definition applyFunctionalFilters
    (items : loc) (options : option QueryOptions) : Comp loc :=
  let predicate := options ≫= predicate in
  let filters := default [] (options ≫= filters) in
  let sortBy := options ≫= sortBy in
  filtered ← Array_filter items (λ entity,
    let mainOk := match predicate with
                  | Some predicate => predicate entity
                  | None => true
                  end in
    if negb mainOk then false
    else forallb (λ f : Predicate, f entity) filters);
  match sortBy with
  | Some sortBy => copy ← Array_spread filtered; Array_sort copy sortBy
  | None => mret filtered
  end.

Definition paginate
    (items : loc) (page pageSize : option Z) : Comp PageResult :=
  let page := default 1 page in
  let pageSize := default 10 pageSize in
  let safePage := Z.max 1 page in
  let safeSize := Z.max 1 pageSize in
  totalItems ← Array_length items;
  let totalPages := Z.max 1 (Math_ceil_div totalItems safeSize) in
  let realPage := Z.min safePage totalPages in
  let start := (realPage - 1) * safeSize in
  let end_ := start + safeSize in
  sliced ← Array_slice items start end_;
  mret (mkPageResult sliced realPage safeSize totalItems totalPages
          (realPage <? totalPages) (1 <? realPage)).
End Core.

Arguments World : clear implicits.
Arguments Predicate : clear implicits.
Arguments QueryOptions : clear implicits.

(** ** strategies/in-memory.strategy.ts *)

Module InMemoryEntityStrategy.
Section Strategy.
Context {T X Err : Type}.

(** [Object.is], the default equality policy. *)
Variable Object_is : T → T → bool.

Local Abbreviation Comp := (M (World T X) Err).

(** The object: its one field holds a reference to the internal array. *)
Record Self := mkSelf { entities : loc }.

(** [new InMemoryEntityStrategy()]: the field initialiser [entities = []]. *)
Definition new : Comp Self :=
  l ← Array_new []; mret (mkSelf l).

Definition add (this : Self) (entity : T) : Comp unit :=
  Array_push (entities this) entity.

Definition remove (this : Self) (entity : T)
    (equalsFn : option (T → T → bool)) : Comp bool :=
  let equalsFn := default Object_is equalsFn in
  index ← Array_findIndex (entities this) (λ e, equalsFn e entity);
  if index =? -1 then mret false
  else
    _ ← Array_splice (entities this) index 1;
    mret true.

Definition getAll (this : Self) : Comp loc :=
  Array_spread (entities this).

Definition update (this : Self) (oldEntity newEntity : T)
    (equalsFn : option (T → T → bool)) : Comp bool :=
  let equalsFn := default Object_is equalsFn in
  index ← Array_findIndex (entities this) (λ e, equalsFn e oldEntity);
  if index =? -1 then mret false
  else
    _ ← Array_set (entities this) index newEntity;
    mret true.

Definition count (this : Self) : Comp Z :=
  Array_length (entities this).

Definition getOne (this : Self) (predicate : Predicate T) : Comp (option T) :=
  Array_find (entities this) predicate.

Definition find (this : Self) (options : option (QueryOptions T)) : Comp loc :=
  applyFunctionalFilters (entities this) options.

Definition findPage (this : Self) (options : QueryOptions T) : Comp PageResult :=
  filtered ← applyFunctionalFilters (entities this) (Some options);
  paginate filtered
    (Some (default 1 (opt_page options)))
    (Some (default 10 (opt_pageSize options))).

(** [clear] rebinds the field to a fresh array; the rebound object is the
    result. *)
Definition clear (this : Self) : Comp Self :=
  l ← Array_new []; mret (mkSelf l).
End Strategy.
End InMemoryEntityStrategy.

(** ** types/strategy.ts and management-entity.ts

    The manager is given as its two fields; the defaults its constructor
    fills in are not part of the embedding. *)

Module ManagementEntity.
Section Manager.
Context {T X Err : Type}.

Local Abbreviation Comp := (M (World T X) Err).

(** The strategy contract: [find], [findPage] and [clear] are optional
    members, probed at call time. *)
Record EntityManagementStrategy := mkStrategy {
  add : T → Comp unit;
  remove : T → option (T → T → bool) → Comp bool;
  getAll : Comp loc;
  update : T → T → option (T → T → bool) → Comp bool;
  count : Comp Z;
  getOne : Predicate T → Comp (option T);
  find : option (option (QueryOptions T) → Comp loc);
  findPage : option (QueryOptions T → Comp PageResult);
  clear : option (Comp unit);
}.

Record Self := mkSelf {
  strategy : EntityManagementStrategy;
  equalsFn : T → T → bool;
}.

Definition addEntity (this : Self) (entity : T) : Comp unit :=
  add (strategy this) entity.

Definition removeEntity (this : Self) (entity : T) : Comp bool :=
  remove (strategy this) entity (Some (equalsFn this)).

Definition getAllEntities (this : Self) : Comp loc :=
  getAll (strategy this).

Definition updateEntity (this : Self) (oldEntity newEntity : T) : Comp bool :=
  update (strategy this) oldEntity newEntity (Some (equalsFn this)).

Definition getEntityCount (this : Self) : Comp Z :=
  count (strategy this).

Definition getOneEntity (this : Self) (predicate : Predicate T)
    : Comp (option T) :=
  getOne (strategy this) predicate.

Definition findEntities (this : Self) (options : option (QueryOptions T))
    : Comp loc :=
  match find (strategy this) with
  | Some find => find options
  | None =>
      all ← getAll (strategy this);
      applyFunctionalFilters all options
  end.

Definition findEntitiesPage (this : Self) (options : QueryOptions T)
    : Comp PageResult :=
  match findPage (strategy this) with
  | Some findPage => findPage options
  | None =>
      filtered ← findEntities this (Some options);
      paginate filtered
        (Some (default 1 (opt_page options)))
        (Some (default 10 (opt_pageSize options)))
  end.

Definition clearEntities (this : Self) : Comp unit :=
  match clear (strategy this) with
  | Some clear => clear
  | None => mret ()
  end.
End Manager.
End ManagementEntity.

(** ** strategies/typeorm.strategy.ts

    The mandatory operations.  The repository hands out arrays of its own
    making, so they are plain lists here. *)

Module TypeOrmEntityStrategy.
Section Strategy.
(** [V]: the values of an entity's properties; [R]: the state behind the
    repository; [FindOptions]: the repository's own query options. *)
Context {V R Err FindOptions : Type}.

(** [T extends Record<string, any>] *)
Abbreviation Entity := (gmap string V).

Variable Object_is : Entity → Entity → bool.

Local Abbreviation Comp := (M R Err).

(** The members of [TypeOrmRepositoryLike] that [add], [remove], [getAll],
    [update], [count] and [getOne] call.  The repository is an external
    collaborator: any of its operations may fault. *)
Record TypeOrmRepositoryLike := mkRepo {
  repo_save : Entity → Comp unit;
  repo_remove : Entity → Comp unit;
  repo_find : option FindOptions → Comp (list Entity);
  repo_count : option FindOptions → Comp Z;
}.

Record Self := mkSelf { repo : TypeOrmRepositoryLike }.

(** [{ ...a, ...b }]: the properties of [a], overridden and extended by
    those of [b]. *)
Definition spread2 (a b : Entity) : Entity := b ∪ a.

Definition add (this : Self) (entity : Entity) : Comp unit :=
  repo_save (repo this) entity.

Definition remove (this : Self) (entity : Entity)
    (equalsFn : option (Entity → Entity → bool)) : Comp bool :=
  let equalsFn := default Object_is equalsFn in
  try_catch
    (_ ← repo_remove (repo this) entity;
     mret true)
    (all ← repo_find (repo this) None;
     match List.find (λ e, equalsFn e entity) all with
     | None => mret false
     | Some match_ =>
         _ ← repo_remove (repo this) match_;
         mret true
     end).

Definition getAll (this : Self) : Comp (list Entity) :=
  repo_find (repo this) None.

Definition update (this : Self) (oldEntity newEntity : Entity)
    (equalsFn : option (Entity → Entity → bool)) : Comp bool :=
  let equalsFn := default Object_is equalsFn in
  try_catch
    (_ ← repo_save (repo this) (spread2 oldEntity newEntity);
     mret true)
    (all ← repo_find (repo this) None;
     match List.find (λ e, equalsFn e oldEntity) all with
     | None => mret false
     | Some match_ =>
         _ ← repo_save (repo this) (spread2 match_ newEntity);
         mret true
     end).

Definition count (this : Self) : Comp Z :=
  repo_count (repo this) None.

Definition getOne (this : Self) (predicate : Entity → bool)
    : Comp (option Entity) :=
  all ← repo_find (repo this) None;
  mret (List.find predicate all).
End Strategy.
End TypeOrmEntityStrategy.

(** ** strategies/sql.strategy.ts

    The mandatory operations, each a call of the adapter. *)

Module SqlEntityStrategy.
Section Strategy.
Context {T R Err : Type}.

Variable Object_is : T → T → bool.

Local Abbreviation Comp := (M R Err).

(** The members of [SqlAdapter] that the mandatory operations call. *)
Record SqlAdapter := mkAdapter {
  adapter_insert : T → Comp unit;
  adapter_update : T → T → (T → T → bool) → Comp bool;
  adapter_delete : T → (T → T → bool) → Comp bool;
  adapter_selectAll : Comp (list T);
  adapter_countAll : Comp Z;
}.

Record Self := mkSelf { adapter : SqlAdapter }.

Definition add (this : Self) (entity : T) : Comp unit :=
  adapter_insert (adapter this) entity.

Definition remove (this : Self) (entity : T)
    (equalsFn : option (T → T → bool)) : Comp bool :=
  adapter_delete (adapter this) entity (default Object_is equalsFn).

Definition getAll (this : Self) : Comp (list T) :=
  adapter_selectAll (adapter this).

Definition update (this : Self) (oldEntity newEntity : T)
    (equalsFn : option (T → T → bool)) : Comp bool :=
  adapter_update (adapter this) oldEntity newEntity
    (default Object_is equalsFn).

Definition count (this : Self) : Comp Z :=
  adapter_countAll (adapter this).
End Strategy.
End SqlEntityStrategy.

(** ** The query operations of the database strategies

    [find] and [findPage] of the repository-style and SQL strategies hand
    what the repository or adapter returns to [applyFunctionalFilters] and
    [paginate], which work on arrays.  Here the store holds the arrays and,
    outside them, the state behind the repository or adapter. *)

(** A repository or adapter call: it acts on the state outside the arrays. *)
Definition outside {T R Err A} (m : M R Err A) : M (World T R) Err A := λ w,
  match m (external w) with
  | Ok a r => Ok a (mkWorld (arrays w) r)
  | Fault e r => Fault e (mkWorld (arrays w) r)
  end.

(** An array that such a call resolves to is a new array of the store. *)
Definition received {T R Err} (m : M R Err (list T)) : M (World T R) Err loc :=
  xs ← outside m; Array_new xs.

Module TypeOrmQueries.
Section Queries.
(** [Any]: the values of type [any] that the repository's own options
    carry; [truthy] is [!!] on them. *)
Context {V R Err Any : Type}.
Variable truthy : Any → bool.

Abbreviation Entity := (gmap string V).
Local Abbreviation Comp := (M (World Entity R) Err).

(** [TypeOrmQueryOptions<T> extends QueryOptions<T>]; [where] is
    [where_] here. *)
Record TypeOrmQueryOptions := mkOptions {
  query : QueryOptions Entity;
  where_ : option Any;
  order : option Any;
  relations : option Any;
  select : option Any;
}.

(** The object literals passed to [repo.find] and [repo.findAndCount]. *)
Record FindManyOptions := mkFindMany {
  fm_where : option Any;
  fm_order : option Any;
  fm_relations : option Any;
  fm_select : option Any;
  fm_skip : option Z;
  fm_take : option Z;
}.

(** The strategy's repository, with its [findAndCount] member next to the
    members of [TypeOrmRepositoryLike] embedded above. *)
Record Self := mkSelf {
  repo : TypeOrmEntityStrategy.TypeOrmRepositoryLike
           (V := V) (R := R) (Err := Err) (FindOptions := FindManyOptions);
  repo_findAndCount : option FindManyOptions → M R Err (list Entity * Z);
}.

(** [!!options?.member] *)
Definition is_set (member : option Any) : bool :=
  match member with
  | Some v => truthy v
  | None => false
  end.

Definition find (this : Self) (options : option TypeOrmQueryOptions)
    : Comp loc :=
  let hasDbOptions :=
    is_set (options ≫= where_) || is_set (options ≫= order)
    || is_set (options ≫= relations) || is_set (options ≫= select) in
  items ← received
    (if hasDbOptions
     then TypeOrmEntityStrategy.repo_find (repo this)
            (Some (mkFindMany (options ≫= where_) (options ≫= order)
                     (options ≫= relations) (options ≫= select) None None))
     else TypeOrmEntityStrategy.repo_find (repo this) None);
  applyFunctionalFilters items (query <$> options).

Definition findPage (this : Self) (options : TypeOrmQueryOptions)
    : Comp PageResult :=
  let page := Z.max 1 (default 1 (opt_page (query options))) in
  let pageSize := Z.max 1 (default 10 (opt_pageSize (query options))) in
  let skip := (page - 1) * pageSize in
  let take := pageSize in
  found ← outside (repo_findAndCount this
    (Some (mkFindMany (where_ options) (order options) (relations options)
             (select options) (Some skip) (Some take))));
  itemsDb ← Array_new found.1;
  let totalDb := found.2 in
  items ← applyFunctionalFilters itemsDb (Some (query options));
  let totalItems := totalDb in
  let totalPages := Z.max 1 (Math_ceil_div totalItems pageSize) in
  let safePage := Z.min page totalPages in
  mret (mkPageResult items safePage pageSize totalItems totalPages
          (safePage <? totalPages) (1 <? safePage)).
End Queries.
End TypeOrmQueries.

Module SqlQueries.
Section Queries.
Context {T R Err : Type}.

Local Abbreviation Comp := (M (World T R) Err).

(** The strategy's adapter, with its optional [select] and [selectPage]
    members next to the members of [SqlAdapter] embedded above;
    [selectPage] resolves to [{ items, total }]. *)
Record Self := mkSelf {
  adapter : SqlEntityStrategy.SqlAdapter (T := T) (R := R) (Err := Err);
  adapter_select : option (option (QueryOptions T) → M R Err (list T));
  adapter_selectPage : option (QueryOptions T → M R Err (list T * Z));
}.

Definition find (this : Self) (options : option (QueryOptions T))
    : Comp loc :=
  match adapter_select this with
  | Some select =>
      items ← received (select options);
      applyFunctionalFilters items options
  | None =>
      all ← received (SqlEntityStrategy.adapter_selectAll (adapter this));
      applyFunctionalFilters all options
  end.

Definition findPage (this : Self) (options : QueryOptions T)
    : Comp PageResult :=
  let page := Z.max 1 (default 1 (opt_page options)) in
  let pageSize := Z.max 1 (default 10 (opt_pageSize options)) in
  match adapter_selectPage this with
  | Some selectPage =>
      selected ← outside (selectPage options);
      items ← Array_new selected.1;
      let total := selected.2 in
      filtered ← applyFunctionalFilters items (Some options);
      let totalPages := Z.max 1 (Math_ceil_div total pageSize) in
      let safePage := Z.min page totalPages in
      mret (mkPageResult filtered safePage pageSize total totalPages
              (safePage <? totalPages) (1 <? safePage))
  | None =>
      filtered ← find this (Some options);
      paginate filtered (Some page) (Some pageSize)
  end.
End Queries.
End SqlQueries.

(** ** Specification vocabulary *)

Section Vocabulary.
Context {T : Type}.

(** The order a comparator denotes: [a] may stand before [b]. *)
Definition may_precede (compareFn : T → T → Z) (a b : T) : Prop :=
  compareFn a b ≤ 0.

(** Two entities the comparator does not tell apart. *)
Definition tied (compareFn : T → T → Z) (a b : T) : bool :=
  compareFn a b =? 0.

(** A consistent comparator, as the language asks of the argument of
    [sort]: swapping the arguments flips the sign, and the order is
    transitive. *)
Record consistent_comparator (compareFn : T → T → Z) : Prop := {
  comparator_flip : ∀ a b, Z.sgn (compareFn a b) = - Z.sgn (compareFn b a);
  comparator_trans : ∀ a b c,
    compareFn a b ≤ 0 → compareFn b c ≤ 0 → compareFn a c ≤ 0;
}.

(** An entity passes the query: the main predicate, when there is one,
    holds, and so does every entry of the filters list. *)
Definition passes (options : option (QueryOptions T)) (entity : T) : Prop :=
  (∀ p, options ≫= predicate = Some p → p entity = true) ∧
  (∀ fs f, options ≫= filters = Some fs → f ∈ fs → f entity = true).

(** The same, decided. *)
Definition passesb (options : option (QueryOptions T)) (entity : T) : bool :=
  match options ≫= predicate with
  | Some predicate => predicate entity
  | None => true
  end && forallb (λ f : Predicate T, f entity) (default [] (options ≫= filters)).

(** The entities that pass, in the order of [xs]. *)
Definition kept (options : option (QueryOptions T)) (xs : list T) : list T :=
  List.filter (passesb options) xs.

(** The content of the array [applyFunctionalFilters] returns for an input
    array of content [xs] ([applyFunctionalFilters_run]). *)
Definition filtered_contents
    (options : option (QueryOptions T)) (xs : list T) : list T :=
  match options ≫= sortBy with
  | Some sortBy => sort sortBy (kept options xs)
  | None => kept options xs
  end.

(** The elements of [xs] at the indices [lo ≤ i < hi]. *)
Definition window (xs : list T) (lo hi : Z) : list T :=
  take (Z.to_nat (hi - lo)) (drop (Z.to_nat lo) xs).
End Vocabulary.

(** The store after the arrays [news] were allocated, in that order. *)
Definition allocated {T X} (w : World T X) (news : list (list T)) : World T X :=
  mkWorld (arrays w ++ news) (external w).

(** The store after the array at [l] was overwritten in place. *)
Definition overwritten {T X} (w : World T X) (l : loc) (xs : list T)
    : World T X :=
  mkWorld (<[l := xs]> (arrays w)) (external w).

(** Operations on the in-memory backend, for histories. *)
Module History.
Section Ops.
Context {T X Err : Type}.
Variable Object_is : T → T → bool.

Local Abbreviation Comp := (M (World T X) Err).

Inductive Op :=
| OpAdd (entity : T)
| OpRemove (entity : T) (equalsFn : option (T → T → bool))
| OpUpdate (oldEntity newEntity : T) (equalsFn : option (T → T → bool)).

(** One call; [add] resolves to nothing, [remove] and [update] to a
    boolean. *)
Definition step (this : InMemoryEntityStrategy.Self) (op : Op)
    : Comp (option bool) :=
  match op with
  | OpAdd entity =>
      _ ← InMemoryEntityStrategy.add this entity; mret None
  | OpRemove entity equalsFn =>
      b ← InMemoryEntityStrategy.remove Object_is this entity equalsFn;
      mret (Some b)
  | OpUpdate oldEntity newEntity equalsFn =>
      b ← InMemoryEntityStrategy.update Object_is this oldEntity newEntity
            equalsFn;
      mret (Some b)
  end.

Fixpoint run (this : InMemoryEntityStrategy.Self) (ops : list Op)
    : Comp (list (Op * option bool)) :=
  match ops with
  | [] => mret []
  | op :: ops' =>
      r ← step this op;
      rs ← run this ops';
      mret ((op, r) :: rs)
  end.

(** What a call contributes to the number of live entities. *)
Definition delta (call : Op * option bool) : Z :=
  match call with
  | (OpAdd _, _) => 1
  | (OpRemove _ _, Some true) => -1
  | _ => 0
  end.

Definition live (calls : list (Op * option bool)) : Z :=
  foldr (λ call n, delta call + n) 0 calls.
End Ops.
End History.

(** ** Concrete instances *)

Module Samples.
Open Scope string_scope.

(** A store with one array of numbers and nothing outside the arrays. *)
Definition numbers (xs : list Z) : World Z () := mkWorld [xs] ().

(** A repository over rows keyed by the property ["id"]: [save] and
    [remove] fault on a row without an ["id"]; [save] replaces the row with
    the same ["id"] or appends; [remove] drops the rows with that ["id"]. *)
Abbreviation Row := (gmap string Z).

Definition has_id (i : Z) (row : Row) : bool :=
  bool_decide (row !! "id" = Some i).

Definition rows_save (row : Row) : M (list Row) string () := λ rows,
  match row !! "id" with
  | None => Fault "missing primary key" rows
  | Some i =>
      if existsb (has_id i) rows
      then Ok () (map (λ r, if has_id i r then row else r) rows)
      else Ok () (rows ++ [row])%list
  end.

Definition rows_remove (row : Row) : M (list Row) string () := λ rows,
  match row !! "id" with
  | None => Fault "missing primary key" rows
  | Some i => Ok () (List.filter (λ r, negb (has_id i r)) rows)
  end.

Definition rows_repo
    : TypeOrmEntityStrategy.TypeOrmRepositoryLike (FindOptions := ()) :=
  TypeOrmEntityStrategy.mkRepo
    rows_save rows_remove
    (λ _ rows, Ok rows rows)
    (λ _ rows, Ok (Z.of_nat (length rows)) rows).

Definition same_id (a b : Row) : bool := bool_decide (a !! "id" = b !! "id").
Definition same_name (a b : Row) : bool :=
  bool_decide (a !! "name" = b !! "name").
Definition same_row (a b : Row) : bool := bool_decide (a = b).

(** A strategy with the mandatory members only, over the array at [l]. *)
Definition plain_strategy (l : loc)
    : ManagementEntity.EntityManagementStrategy (T := Z) (X := ()) (Err := string) :=
  let this := InMemoryEntityStrategy.mkSelf l in
  ManagementEntity.mkStrategy
    (InMemoryEntityStrategy.add this)
    (InMemoryEntityStrategy.remove Z.eqb this)
    (InMemoryEntityStrategy.getAll this)
    (InMemoryEntityStrategy.update Z.eqb this)
    (InMemoryEntityStrategy.count this)
    (InMemoryEntityStrategy.getOne this)
    None None None.

(** An adapter over a list of numbers, compared by the policy it is given. *)
Definition list_adapter
    : SqlEntityStrategy.SqlAdapter (T := Z) (R := list Z) (Err := string) :=
  SqlEntityStrategy.mkAdapter
    (λ entity rows, Ok () (rows ++ [entity])%list)
    (λ oldEntity newEntity equalsFn rows,
       Ok (existsb (λ e, equalsFn e oldEntity) rows)
          (map (λ e, if equalsFn e oldEntity then newEntity else e) rows))
    (λ entity equalsFn rows,
       Ok (existsb (λ e, equalsFn e entity) rows)
          (List.filter (λ e, negb (equalsFn e entity)) rows))
    (λ rows, Ok rows rows)
    (λ rows, Ok (Z.of_nat (length rows)) rows).
End Samples.

(** Instances for the query operations of the database strategies. *)
Module QuerySamples.
Open Scope string_scope.

(** A repository over a table of rows: [findAndCount] answers with the
    rows [skip, skip + take) of the table and the size of the table. *)
Definition table_findAndCount
    (request : option (TypeOrmQueries.FindManyOptions (Any := ())))
    : M (list (gmap string Z)) string (list (gmap string Z) * Z) := λ rows,
  let skip := default 0 (request ≫= TypeOrmQueries.fm_skip) in
  Ok (match request ≫= TypeOrmQueries.fm_take with
      | Some take => window rows skip (skip + take)
      | None => drop (Z.to_nat skip) rows
      end, Z.of_nat (length rows)) rows.

Definition table_strategy
    : TypeOrmQueries.Self (V := Z) (R := list (gmap string Z))
        (Err := string) (Any := ()) :=
  TypeOrmQueries.mkSelf
    (TypeOrmEntityStrategy.mkRepo
       Samples.rows_save Samples.rows_remove
       (λ _ rows, Ok rows rows)
       (λ _ rows, Ok (Z.of_nat (length rows)) rows))
    table_findAndCount.

Definition row (i : Z) : gmap string Z := {[ "id" := i ]}.

(** An adapter without native queries, and one whose [select] applies the
    criteria itself and whose [selectPage] answers with the first two
    entities and the size of the table. *)
Definition plain_queries
    : SqlQueries.Self (T := Z) (R := list Z) (Err := string) :=
  SqlQueries.mkSelf Samples.list_adapter None None.

Definition native_queries
    : SqlQueries.Self (T := Z) (R := list Z) (Err := string) :=
  SqlQueries.mkSelf Samples.list_adapter
    (Some (λ options rows, Ok (filtered_contents options rows) rows))
    (Some (λ options rows, Ok (take 2 rows, Z.of_nat (length rows)) rows)).
End QuerySamples.

(** * Properties *)

(** ** Array contents *)

Section ArrayContentsFacts.
Context {T : Type}.
Implicit Types (a : list T) (p : T → bool).

Lemma findIndex_range p a :
  findIndex p a = -1 ∨ 0 ≤ findIndex p a < Z.of_nat (length a).
Proof.
  induction a as [|x a IH]; simpl; [by left|].
  destruct (p x); [right; lia|].
  destruct (Z.eqb_spec (findIndex p a) (-1)); [by left|right; lia].
Qed.

Lemma findIndex_none p a :
  findIndex p a = -1 ↔ Forall (λ x, p x = false) a.
Proof.
  induction a as [|x a IH]; simpl; [split; [constructor|done]|].
  destruct (p x) eqn:Hx.
  - split; [done|]. intros H. inversion H; congruence.
  - destruct (Z.eqb_spec (findIndex p a) (-1)) as [E|E].
    + split; [|done]. intros _. constructor; [done|]. by apply IH.
    + split.
      * destruct (findIndex_range p a); lia.
      * intros H. inversion H; subst. tauto.
Qed.

(** A found index is the position of the first element that satisfies the
    callback. *)
Lemma findIndex_first p a i :
  findIndex p a = i → i ≠ -1 →
  ∃ x, a !! Z.to_nat i = Some x ∧ p x = true ∧
       Forall (λ y, p y = false) (take (Z.to_nat i) a).
Proof.
  revert i. induction a as [|x a IH]; simpl; intros i Hi Hne; [congruence|].
  destruct (p x) eqn:Hx.
  - subst i. exists x. simpl. by repeat split.
  - destruct (Z.eqb_spec (findIndex p a) (-1)) as [E|E]; [congruence|].
    destruct (findIndex_range p a) as [?|Hr]; [done|].
    destruct (IH _ eq_refl E) as (y & Hy & Hpy & Hbefore).
    subst i. replace (Z.to_nat (findIndex p a + 1)) with (S (Z.to_nat (findIndex p a))) by lia.
    exists y. simpl. repeat split; [done..|]. by constructor.
Qed.

Lemma slice_window a start end_ :
  0 ≤ start → start ≤ end_ →
  slice a start end_ = take (Z.to_nat (end_ - start)) (drop (Z.to_nat start) a).
Proof.
  intros H0 Hle. unfold slice, relative_index.
  destruct (Z.ltb_spec start 0); [lia|].
  destruct (Z.ltb_spec end_ 0); [lia|].
  set (len := Z.of_nat (length a)).
  destruct (Z.le_gt_cases len start) as [Hs|Hs].
  - rewrite !Z.min_r by lia. rewrite !drop_ge by lia. by rewrite !take_nil.
  - rewrite (Z.min_l start) by lia.
    destruct (Z.le_gt_cases end_ len) as [He|He].
    + by rewrite Z.min_l by lia.
    + rewrite Z.min_r by lia.
      rewrite !take_ge; [done|rewrite length_drop; lia..].
Qed.

Lemma splice_one a i :
  0 ≤ i < Z.of_nat (length a) →
  splice a i 1 = take (Z.to_nat i) a ++ drop (S (Z.to_nat i)) a.
Proof.
  intros Hi. unfold splice, relative_index.
  destruct (Z.ltb_spec i 0); [lia|].
  rewrite (Z.min_l i) by lia.
  do 2 f_equal. lia.
Qed.

Lemma length_splice_one a i :
  0 ≤ i < Z.of_nat (length a) →
  Z.of_nat (length (splice a i 1)) = Z.of_nat (length a) - 1.
Proof.
  intros Hi. rewrite splice_one by done.
  rewrite length_app, length_take, length_drop. lia.
Qed.
End ArrayContentsFacts.

(** [Math.ceil(a / b)] is the integer ceiling of the quotient. *)
Lemma Math_ceil_div_Z a b : Math_ceil_div a b = - ((- a) / b).
Proof.
  unfold Math_ceil_div, Qceiling. f_equal.
  rewrite Zdiv_Qdiv. apply Qfloor_comp.
  rewrite inject_Z_opp. unfold Qdiv.
  ring.
Qed.

Lemma Math_ceil_div_bounds a b :
  0 < b →
  (Math_ceil_div a b - 1) * b < a ≤ Math_ceil_div a b * b.
Proof.
  intros Hb. rewrite Math_ceil_div_Z.
  pose proof (Z.div_mod (- a) b ltac:(lia)).
  pose proof (Z.mod_pos_bound (- a) b Hb). nia.
Qed.

(** ** The stable sort *)

Section SortFacts.
Context {T : Type} (compareFn : T → T → Z).
Implicit Types (x y : T) (l : list T).

Lemma sort_insert_perm x l : sort_insert compareFn x l ≡ₚ x :: l.
Proof.
  induction l as [|y l IH]; simpl; [done|].
  destruct (compareFn x y <=? 0); [done|].
  rewrite IH. apply perm_swap.
Qed.

Lemma sort_perm l : sort compareFn l ≡ₚ l.
Proof.
  induction l as [|x l IH]; simpl; [done|].
  by rewrite sort_insert_perm, IH.
Qed.


Section Consistent.
Hypothesis Hcmp : consistent_comparator compareFn.

Lemma comparator_total x y : compareFn x y ≤ 0 ∨ compareFn y x ≤ 0.
Proof. pose proof (comparator_flip _ Hcmp x y). lia. Qed.

Lemma tied_refl x : tied compareFn x x = true.
Proof.
  unfold tied. pose proof (comparator_flip _ Hcmp x x).
  apply Z.eqb_eq. lia.
Qed.

Lemma tied_both x y :
  compareFn x y ≤ 0 → compareFn y x ≤ 0 → tied compareFn x y = true.
Proof.
  intros. unfold tied. pose proof (comparator_flip _ Hcmp x y).
  apply Z.eqb_eq. lia.
Qed.

Lemma may_precede_trans : Transitive (may_precede compareFn).
Proof. intros a b c. apply (comparator_trans _ Hcmp). Qed.

Lemma sort_insert_sorted x l :
  Sorted (may_precede compareFn) l →
  Sorted (may_precede compareFn) (sort_insert compareFn x l).
Proof.
  induction 1 as [|y l Hl IH Hhd]; simpl; [by repeat constructor|].
  destruct (Z.leb_spec (compareFn x y) 0) as [Hxy|Hxy].
  - by repeat constructor.
  - constructor; [done|].
    assert (may_precede compareFn y x) as Hyx.
    { unfold may_precede. destruct (comparator_total x y); lia. }
    destruct Hhd as [|z l' Hyz]; simpl; [by constructor|].
    destruct (compareFn x z <=? 0); by constructor.
Qed.

Lemma sort_sorted l : StronglySorted (may_precede compareFn) (sort compareFn l).
Proof.
  apply Sorted_StronglySorted; [apply may_precede_trans|].
  induction l as [|x l IH]; simpl; [constructor|].
  by apply sort_insert_sorted.
Qed.

Lemma sort_insert_tied x a l :
  List.filter (tied compareFn x) (sort_insert compareFn a l)
  = List.filter (tied compareFn x) (a :: l).
Proof.
  induction l as [|y l IH]; [done|].
  cbn [sort_insert].
  destruct (Z.leb_spec (compareFn a y) 0) as [Hay|Hay]; [done|].
  cbn [List.filter] in *. rewrite IH.
  destruct (tied compareFn x a) eqn:Hxa, (tied compareFn x y) eqn:Hxy;
    try done.
  exfalso. unfold tied in *.
  apply Z.eqb_eq in Hxa, Hxy.
  pose proof (comparator_flip _ Hcmp a x).
  assert (compareFn a y ≤ 0); [|lia].
  apply (comparator_trans _ Hcmp a x y); lia.
Qed.

(** Stability: the entities tied with any given one come out in the order
    they went in. *)
Lemma sort_stable x l :
  List.filter (tied compareFn x) (sort compareFn l)
  = List.filter (tied compareFn x) l.
Proof.
  induction l as [|a l IH]; [done|].
  cbn [sort foldr]. fold (sort compareFn l).
  rewrite sort_insert_tied. cbn [List.filter]. by rewrite IH.
Qed.

Lemma sorted_stable_eq l1 l2 :
  StronglySorted (may_precede compareFn) l1 →
  StronglySorted (may_precede compareFn) l2 →
  (∀ x, List.filter (tied compareFn x) l1 = List.filter (tied compareFn x) l2) →
  l1 = l2.
Proof.
  revert l2. induction l1 as [|a l1 IH]; intros l2 Hs1 Hs2 Hf.
  - destruct l2 as [|b l2]; [done|].
    specialize (Hf b). cbn in Hf. by rewrite tied_refl in Hf.
  - destruct l2 as [|b l2].
    { specialize (Hf a). cbn in Hf. by rewrite tied_refl in Hf. }
    apply StronglySorted_inv in Hs1 as [Hs1 Ha].
    apply StronglySorted_inv in Hs2 as [Hs2 Hb].
    assert (In a (b :: l2)) as Ha2.
    { eapply proj1, filter_In. rewrite <-(Hf a). cbn.
      rewrite tied_refl. by left. }
    assert (In b (a :: l1)) as Hb1.
    { eapply proj1, filter_In. rewrite (Hf b). cbn.
      rewrite tied_refl. by left. }
    assert (tied compareFn a b = true) as Hab.
    { destruct Ha2 as [->|Ha2]; [apply tied_refl|].
      destruct Hb1 as [->|Hb1]; [apply tied_refl|].
      rewrite List.Forall_forall in Ha, Hb.
      apply tied_both; [by apply Ha|by apply Hb]. }
    pose proof (Hf a) as Hfa. cbn in Hfa.
    rewrite tied_refl, Hab in Hfa. injection Hfa as <- Hfa.
    f_equal. apply IH; [done..|].
    intros x. specialize (Hf x). cbn in Hf.
    destruct (tied compareFn x a); [by injection Hf|done].
Qed.

(** For a consistent comparator the stable sorted arrangement is unique:
    whatever algorithm an engine runs, it returns [sort]. *)
Lemma stable_sort_unique l l' :
  StronglySorted (may_precede compareFn) l' →
  (∀ x, List.filter (tied compareFn x) l' = List.filter (tied compareFn x) l) →
  l' = sort compareFn l.
Proof.
  intros Hs Hf. apply sorted_stable_eq; [done|apply sort_sorted|].
  intros x. by rewrite sort_stable.
Qed.
End Consistent.
End SortFacts.

(** ** The store *)

Section StoreFacts.
Context {T X : Type}.
Implicit Types (w : World T X) (l : loc) (xs : list T).

Lemma allocated_old w news l xs :
  arrays w !! l = Some xs → arrays (allocated w news) !! l = Some xs.
Proof. intros H. simpl. by apply lookup_app_l_Some. Qed.

Lemma allocated_preserved w news l :
  (l < length (arrays w))%nat →
  arrays (allocated w news) !! l = arrays w !! l.
Proof. intros H. simpl. by apply lookup_app_l. Qed.

Lemma allocated_new w news (i : nat) :
  arrays (allocated w news) !! (length (arrays w) + i)%nat = news !! i.
Proof. simpl. rewrite lookup_app_r by lia. f_equal. lia. Qed.

Lemma allocated_first w ys news :
  arrays (allocated w (ys :: news)) !! length (arrays w) = Some ys.
Proof.
  pose proof (allocated_new w (ys :: news) 0) as H.
  by rewrite Nat.add_0_r in H.
Qed.

Lemma lookup_valid w l xs :
  arrays w !! l = Some xs → (l < length (arrays w))%nat.
Proof. apply lookup_lt_Some. Qed.

Lemma window_lookup xs lo hi (i : nat) :
  0 ≤ lo →
  window xs lo hi !! i
  = if lo + Z.of_nat i <? hi then xs !! Z.to_nat (lo + Z.of_nat i) else None.
Proof.
  intros Hlo. unfold window.
  destruct (Z.ltb_spec (lo + Z.of_nat i) hi).
  - rewrite lookup_take_lt by lia. rewrite lookup_drop. f_equal. lia.
  - apply lookup_take_ge. lia.
Qed.
End StoreFacts.

(** ** Running the array methods *)

Lemma bind_ok {S E A B} (m : M S E A) (k : A → M S E B) s a s' :
  m s = Ok a s' → (m ≫= k) s = k a s'.
Proof. intros H. unfold mbind, M_bind. by rewrite H. Qed.

Lemma bind_fault {S E A B} (m : M S E A) (k : A → M S E B) s e s' :
  m s = Fault e s' → (m ≫= k) s = Fault e s'.
Proof. intros H. unfold mbind, M_bind. by rewrite H. Qed.

Section ArrayMethodFacts.
Context {T X Err : Type}.
Implicit Types (w : World T X) (l : loc) (xs : list T).

Lemma allocated_allocated w news news' :
  allocated (allocated w news) news' = allocated w (news ++ news').
Proof. unfold allocated. simpl. by rewrite app_assoc. Qed.

Lemma Array_read_run w l xs :
  arrays w !! l = Some xs → Array_read (Err := Err) l w = Ok xs w.
Proof. intros H. unfold Array_read. by rewrite H. Qed.


Lemma Array_length_run w l xs :
  arrays w !! l = Some xs →
  Array_length (Err := Err) l w = Ok (Z.of_nat (length xs)) w.
Proof.
  intros H. unfold Array_length.
  by rewrite (bind_ok _ _ _ _ _ (Array_read_run _ _ _ H)).
Qed.

Lemma Array_filter_run w l xs p :
  arrays w !! l = Some xs →
  Array_filter (Err := Err) l p w
  = Ok (length (arrays w)) (allocated w [List.filter p xs]).
Proof.
  intros H. unfold Array_filter.
  by rewrite (bind_ok _ _ _ _ _ (Array_read_run _ _ _ H)).
Qed.

Lemma Array_spread_run w l xs :
  arrays w !! l = Some xs →
  Array_spread (Err := Err) l w = Ok (length (arrays w)) (allocated w [xs]).
Proof.
  intros H. unfold Array_spread.
  by rewrite (bind_ok _ _ _ _ _ (Array_read_run _ _ _ H)).
Qed.

Lemma Array_slice_run w l xs start end_ :
  arrays w !! l = Some xs →
  Array_slice (Err := Err) l start end_ w
  = Ok (length (arrays w)) (allocated w [slice xs start end_]).
Proof.
  intros H. unfold Array_slice.
  by rewrite (bind_ok _ _ _ _ _ (Array_read_run _ _ _ H)).
Qed.

Lemma Array_write_run w l xs :
  Array_write (Err := Err) l xs w
  = Ok () (mkWorld (<[l := xs]> (arrays w)) (external w)).
Proof. done. Qed.

Lemma Array_sort_run w l xs compareFn :
  arrays w !! l = Some xs →
  Array_sort (Err := Err) l compareFn w
  = Ok l (mkWorld (<[l := sort compareFn xs]> (arrays w)) (external w)).
Proof.
  intros H. unfold Array_sort.
  by rewrite (bind_ok _ _ _ _ _ (Array_read_run _ _ _ H)).
Qed.

Lemma Array_findIndex_run w l xs p :
  arrays w !! l = Some xs →
  Array_findIndex (Err := Err) l p w = Ok (findIndex p xs) w.
Proof.
  intros H. unfold Array_findIndex.
  by rewrite (bind_ok _ _ _ _ _ (Array_read_run _ _ _ H)).
Qed.

Lemma Array_find_run w l xs p :
  arrays w !! l = Some xs →
  Array_find (Err := Err) l p w = Ok (List.find p xs) w.
Proof.
  intros H. unfold Array_find.
  by rewrite (bind_ok _ _ _ _ _ (Array_read_run _ _ _ H)).
Qed.

Lemma Array_push_run w l xs e :
  arrays w !! l = Some xs →
  Array_push (Err := Err) l e w
  = Ok () (mkWorld (<[l := xs ++ [e]]> (arrays w)) (external w)).
Proof.
  intros H. unfold Array_push.
  by rewrite (bind_ok _ _ _ _ _ (Array_read_run _ _ _ H)).
Qed.

Lemma Array_splice_run w l xs start deleteCount :
  arrays w !! l = Some xs →
  Array_splice (Err := Err) l start deleteCount w
  = Ok () (mkWorld (<[l := splice xs start deleteCount]> (arrays w))
             (external w)).
Proof.
  intros H. unfold Array_splice.
  by rewrite (bind_ok _ _ _ _ _ (Array_read_run _ _ _ H)).
Qed.

Lemma Array_set_run w l xs index e :
  arrays w !! l = Some xs →
  Array_set (Err := Err) l index e w
  = Ok () (mkWorld (<[l := <[Z.to_nat index := e]> xs]> (arrays w))
             (external w)).
Proof.
  intros H. unfold Array_set.
  by rewrite (bind_ok _ _ _ _ _ (Array_read_run _ _ _ H)).
Qed.

(** Sorting the array allocated last. *)
Lemma sort_last_allocated w ys zs zs' :
  mkWorld (<[S (length (arrays w)) := zs']> (arrays (allocated w [ys; zs])))
    (external w)
  = allocated w [ys; zs'].
Proof.
  unfold allocated. simpl. f_equal.
  replace (S (length (arrays w))) with (length (arrays w) + 1)%nat by lia.
  by rewrite insert_app_r.
Qed.
End ArrayMethodFacts.

(** ** utils/query-utils.ts *)

Section QueryUtilsFacts.
Context {T X Err : Type}.
Implicit Types (w : World T X) (l : loc) (xs : list T).
Local Abbreviation Comp := (M (World T X) Err).

Lemma paginate_run w l xs page pageSize :
  arrays w !! l = Some xs →
  let safeSize := Z.max 1 (default 10 pageSize) in
  let totalItems := Z.of_nat (length xs) in
  let totalPages := Z.max 1 (Math_ceil_div totalItems safeSize) in
  let realPage := Z.min (Z.max 1 (default 1 page)) totalPages in
  paginate (Err := Err) l page pageSize w
  = Ok (mkPageResult (length (arrays w)) realPage safeSize totalItems
          totalPages (realPage <? totalPages) (1 <? realPage))
       (allocated w [slice xs ((realPage - 1) * safeSize)
                       ((realPage - 1) * safeSize + safeSize)]).
Proof.
  intros H. cbv zeta. unfold paginate.
  rewrite (bind_ok _ _ _ _ _ (Array_length_run _ _ _ H)).
  by rewrite (bind_ok _ _ _ _ _ (Array_slice_run _ _ _ _ _ H)).
Qed.

Lemma passesb_spec (options : option (QueryOptions T)) entity :
  passesb options entity = true ↔ passes options entity.
Proof.
  unfold passesb, passes. rewrite andb_true_iff, forallb_forall.
  destruct options as [o|]; simpl; [|by intuition].
  split.
  - intros [Hp Hf]. split.
    + intros p Ep. by rewrite Ep in Hp.
    + intros fs f Efs Hin. rewrite Efs in Hf. by apply Hf, list_elem_of_In.
  - intros [Hp Hf]. split.
    + destruct (predicate o) as [p|]; [by apply Hp|done].
    + intros f Hin. destruct (filters o) as [fs|]; simpl in Hin; [|done].
      eapply Hf; [done|]. by apply list_elem_of_In.
Qed.

Lemma applyFunctionalFilters_run w l xs options :
  arrays w !! l = Some xs →
  applyFunctionalFilters (Err := Err) l options w
  = match options ≫= sortBy with
    | None => Ok (length (arrays w)) (allocated w [kept options xs])
    | Some sortBy =>
        Ok (S (length (arrays w)))
           (allocated w [kept options xs; sort sortBy (kept options xs)])
    end.
Proof.
  intros H. unfold applyFunctionalFilters.
  rewrite (bind_ok _ _ _ _ _ (Array_filter_run _ _ _ _ H)).
  rewrite (filter_ext _ (passesb options)); fold (kept options xs).
  2: { intros e. unfold passesb. destruct options as [o|]; simpl; [|done].
       by destruct (predicate o) as [p|]; [destruct (p e)|]. }
  destruct options as [[pg ps pr fs [c|]]|]; simpl; [|done..].
  set (ks := kept _ xs).
  erewrite bind_ok; [|by apply Array_spread_run, allocated_first].
  rewrite allocated_allocated. simpl.
  erewrite Array_sort_run.
  2: { pose proof (allocated_new w [ks; ks] 1) as E. simpl in E.
       replace (length (arrays w) + 1)%nat with (S (length (arrays w))) in E by lia.
       rewrite length_app. simpl. rewrite Nat.add_1_r. exact E. }
  rewrite length_app. simpl. rewrite Nat.add_1_r.
  f_equal. apply sort_last_allocated.
Qed.

Lemma window_slice xs lo size :
  0 ≤ lo → 0 ≤ size → slice xs lo (lo + size) = window xs lo (lo + size).
Proof. intros Hlo Hsize. unfold window. by rewrite slice_window by lia. Qed.

(** C2. [paginate] always resolves.  Its result has the page size clamped
    to at least 1, [totalItems] the length of the input,
    [totalPages = max(1, ceil(totalItems / pageSize))], the effective page
    [min(max(1, page), totalPages)], as items a fresh array holding the
    window [(page-1)*pageSize, page*pageSize) of the input (at most
    [pageSize] entities, exactly [pageSize] before the last page),
    [hasNext] iff the effective page is below [totalPages] and [hasPrev]
    iff it is above 1. *)
Theorem paginate_page_result w l xs (reqPage reqSize : Z) :
  arrays w !! l = Some xs →
  ∃ r w',
    paginate (Err := Err) l (Some reqPage) (Some reqSize) w = Ok r w' ∧
    pageSize r = Z.max 1 reqSize ∧
    totalItems r = Z.of_nat (length xs) ∧
    totalPages r
    = Z.max 1 (Qceiling (inject_Z (totalItems r) / inject_Z (pageSize r))%Q) ∧
    page r = Z.min (Z.max 1 reqPage) (totalPages r) ∧
    (∃ ys,
       arrays w' !! items r = Some ys ∧
       ys = window xs ((page r - 1) * pageSize r) (page r * pageSize r) ∧
       Z.of_nat (length ys) ≤ pageSize r ∧
       (page r < totalPages r → Z.of_nat (length ys) = pageSize r)) ∧
    (hasNext r = true ↔ page r < totalPages r) ∧
    (hasPrev r = true ↔ page r > 1) ∧
    arrays w' !! l = Some xs.
Proof.
  intros H. eexists _, _. split; [by apply paginate_run|]. simpl.
  set (ps := Z.max 1 reqSize).
  set (n := Z.of_nat (length xs)).
  set (tp := Z.max 1 (Math_ceil_div n ps)).
  set (rp := Z.min (Z.max 1 reqPage) tp).
  assert (1 ≤ ps) by lia. assert (1 ≤ rp ≤ tp) by lia.
  repeat split; try done; try lia.
  - exists (window xs ((rp - 1) * ps) (rp * ps)).
    replace (rp * ps) with ((rp - 1) * ps + ps) by lia.
    split; [|split; [done|]].
    { rewrite list_lookup_middle by done. f_equal. apply window_slice; nia. }
    unfold window. rewrite length_take, length_drop.
    replace ((rp - 1) * ps + ps - (rp - 1) * ps) with ps by lia.
    split; [lia|]. intros Hlt.
    assert (tp = Math_ceil_div n ps) as Etp by lia.
    pose proof (Math_ceil_div_bounds n ps ltac:(lia)). nia.
  - by apply lookup_app_l_Some.
Qed.

(** C3. [applyFunctionalFilters] returns a fresh array holding exactly the
    entities that pass the main predicate (when present) and every entry
    of the filters list, in the order of the input; with [sortBy] it holds
    a permutation of them which, for a consistent comparator, is sorted
    and stable (the entities tied with any given one keep their filtered
    order).  The input array and every other array allocated before the
    call keep their content. *)
Theorem applyFunctionalFilters_filters_sorts w l xs
    (options : option (QueryOptions T)) :
  arrays w !! l = Some xs →
  ∃ r w' ys (f : T → bool),
    applyFunctionalFilters (Err := Err) l options w = Ok r w' ∧
    arrays w' !! r = Some ys ∧
    (∀ e, f e = true ↔ passes options e) ∧
    match options ≫= sortBy with
    | None => ys = List.filter f xs
    | Some compareFn =>
        ys ≡ₚ List.filter f xs ∧
        (consistent_comparator compareFn →
         StronglySorted (may_precede compareFn) ys ∧
         ∀ x, List.filter (tied compareFn x) ys
              = List.filter (tied compareFn x) (List.filter f xs))
    end ∧
    r ≠ l ∧
    arrays w' !! l = Some xs ∧
    (∀ l', (l' < length (arrays w))%nat → arrays w' !! l' = arrays w !! l') ∧
    external w' = external w.
Proof.
  intros H. pose proof (lookup_valid _ _ _ H) as Hl.
  pose proof (applyFunctionalFilters_run w l xs options H) as Hrun.
  destruct (options ≫= sortBy) as [c|] eqn:Ec.
  - exists (S (length (arrays w))), (allocated w [kept options xs; sort c (kept options xs)]),
      (sort c (kept options xs)), (passesb options).
    split; [done|]. split.
    { pose proof (allocated_new w [kept options xs; sort c (kept options xs)] 1) as E.
      by rewrite Nat.add_1_r in E. }
    split; [apply passesb_spec|]. split.
    { split; [apply sort_perm|]. intros Hc.
      split; [by apply sort_sorted|]. intros x. by apply sort_stable. }
    repeat split; [lia|by apply allocated_old|].
    intros l' Hl'. by apply allocated_preserved.
  - exists (length (arrays w)), (allocated w [kept options xs]),
      (kept options xs), (passesb options).
    split; [done|]. split; [apply allocated_first|].
    split; [apply passesb_spec|]. split; [done|].
    repeat split; [lia|by apply allocated_old|].
    intros l' Hl'. by apply allocated_preserved.
Qed.
End QueryUtilsFacts.

(** ** strategies/in-memory.strategy.ts *)

Section InMemoryFacts.
Context {T X Err : Type} (Object_is : T → T → bool).
Import InMemoryEntityStrategy.
Implicit Types (w : World T X) (this : Self) (es : list T).
Implicit Types (equalsFn : option (T → T → bool)).

Lemma overwritten_same w l xs es :
  arrays w !! l = Some es → arrays (overwritten w l xs) !! l = Some xs.
Proof.
  intros H. simpl. apply list_lookup_insert_eq. by eapply lookup_lt_Some.
Qed.

Lemma overwritten_other w l l' xs :
  l ≠ l' → arrays (overwritten w l xs) !! l' = arrays w !! l'.
Proof. intros H. simpl. by apply list_lookup_insert_ne. Qed.

Lemma new_run w :
  new (Err := Err) w = Ok (mkSelf (length (arrays w))) (allocated w [[]]).
Proof. done. Qed.

Lemma add_run w this es entity :
  arrays w !! entities this = Some es →
  add (Err := Err) this entity w
  = Ok () (overwritten w (entities this) (es ++ [entity])).
Proof. intros H. by apply Array_push_run. Qed.

Lemma remove_run w this es entity equalsFn :
  arrays w !! entities this = Some es →
  let index := findIndex (λ e, default Object_is equalsFn e entity) es in
  remove (Err := Err) Object_is this entity equalsFn w
  = if index =? -1 then Ok false w
    else Ok true (overwritten w (entities this) (splice es index 1)).
Proof.
  intros H. cbv zeta. unfold remove.
  rewrite (bind_ok _ _ _ _ _ (Array_findIndex_run _ _ _ _ H)).
  destruct (_ =? -1); [done|].
  by rewrite (bind_ok _ _ _ _ _ (Array_splice_run _ _ _ _ _ H)).
Qed.

Lemma update_run w this es oldEntity newEntity equalsFn :
  arrays w !! entities this = Some es →
  let index := findIndex (λ e, default Object_is equalsFn e oldEntity) es in
  update (Err := Err) Object_is this oldEntity newEntity equalsFn w
  = if index =? -1 then Ok false w
    else Ok true (overwritten w (entities this)
                    (<[Z.to_nat index := newEntity]> es)).
Proof.
  intros H. cbv zeta. unfold update.
  rewrite (bind_ok _ _ _ _ _ (Array_findIndex_run _ _ _ _ H)).
  destruct (_ =? -1); [done|].
  by rewrite (bind_ok _ _ _ _ _ (Array_set_run _ _ _ _ _ H)).
Qed.

Lemma count_run w this es :
  arrays w !! entities this = Some es →
  count (Err := Err) this w = Ok (Z.of_nat (length es)) w.
Proof. intros H. by apply Array_length_run. Qed.

Lemma getAll_run w this es :
  arrays w !! entities this = Some es →
  getAll (Err := Err) this w = Ok (length (arrays w)) (allocated w [es]).
Proof. intros H. by apply Array_spread_run. Qed.

Lemma applyFunctionalFilters_contents w l xs (options : option (QueryOptions T)) :
  arrays w !! l = Some xs →
  ∃ r w',
    applyFunctionalFilters (Err := Err) l options w = Ok r w' ∧
    arrays w' !! r = Some (filtered_contents options xs).
Proof.
  intros H. rewrite (applyFunctionalFilters_run _ _ _ _ H).
  unfold filtered_contents.
  destruct (options ≫= sortBy) as [c|]; eexists _, _; (split; [done|]).
  - pose proof (allocated_new w [kept options xs; sort c (kept options xs)] 1) as E.
    by rewrite Nat.add_1_r in E.
  - apply allocated_first.
Qed.

(** The native paginated search is [paginate] run on an array that holds
    the filtered content. *)
Lemma findPage_paginate w this es (options : QueryOptions T) :
  arrays w !! entities this = Some es →
  ∃ filtered wf,
    arrays wf !! filtered = Some (filtered_contents (Some options) es) ∧
    findPage (Err := Err) this options w
    = paginate filtered
        (Some (default 1 (opt_page options)))
        (Some (default 10 (opt_pageSize options))) wf.
Proof.
  intros H.
  destruct (applyFunctionalFilters_contents w _ es (Some options) H)
    as (r & w' & Hrun & Hr).
  exists r, w'. split; [done|]. unfold findPage. by erewrite bind_ok.
Qed.

(** C7. When no stored entity equals the argument under the equality
    policy, [remove] resolves to [false] and [update] resolves to [false],
    and neither changes the store: the collection holds the same entities
    in the same order. *)
Theorem in_memory_no_match_unchanged w this es equalsFn entity newEntity :
  arrays w !! entities this = Some es →
  (∀ e, e ∈ es → default Object_is equalsFn e entity = false) →
  remove (Err := Err) Object_is this entity equalsFn w = Ok false w ∧
  update (Err := Err) Object_is this entity newEntity equalsFn w = Ok false w.
Proof.
  intros H Hno.
  assert (findIndex (λ e, default Object_is equalsFn e entity) es = -1) as E.
  { apply findIndex_none, Forall_forall. exact Hno. }
  rewrite (remove_run _ _ _ _ _ H), (update_run _ _ _ _ _ _ H).
  by rewrite E.
Qed.

(** C10. A successful [update] writes the new entity at the index of the
    first stored entity that equals [oldEntity] under the equality policy,
    in the same array; every other index keeps its entity, so the length
    and the order are unchanged, and so is every other array. *)
Theorem in_memory_update_in_place w this es equalsFn oldEntity newEntity w' :
  arrays w !! entities this = Some es →
  update (Err := Err) Object_is this oldEntity newEntity equalsFn w
  = Ok true w' →
  ∃ (i : nat) (x : T),
    es !! i = Some x ∧
    default Object_is equalsFn x oldEntity = true ∧
    (∀ (j : nat) y, (j < i)%nat → es !! j = Some y →
       default Object_is equalsFn y oldEntity = false) ∧
    arrays w' !! entities this = Some (<[i := newEntity]> es) ∧
    <[i := newEntity]> es !! i = Some newEntity ∧
    (∀ j : nat, j ≠ i → <[i := newEntity]> es !! j = es !! j) ∧
    length (<[i := newEntity]> es) = length es ∧
    (∀ l, l ≠ entities this → arrays w' !! l = arrays w !! l) ∧
    external w' = external w.
Proof.
  intros H Hup. rewrite (update_run _ _ _ _ _ _ H) in Hup.
  set (p := λ e, default Object_is equalsFn e oldEntity) in *.
  destruct (Z.eqb_spec (findIndex p es) (-1)) as [E|E]; [by inversion Hup|].
  injection Hup as <-.
  destruct (findIndex_first p es _ eq_refl E) as (x & Hx & Hpx & Hbefore).
  exists (Z.to_nat (findIndex p es)), x.
  split; [done|]. split; [done|]. split.
  { intros j y Hj Hy. rewrite Forall_forall in Hbefore. apply Hbefore.
    apply list_elem_of_lookup. exists j. by rewrite lookup_take_lt. }
  split; [by eapply overwritten_same|].
  split; [apply list_lookup_insert_eq; by eapply lookup_lt_Some|].
  split; [intros j Hj; by apply list_lookup_insert_ne|].
  split; [apply length_insert|].
  split; [|done]. intros l Hl. by apply overwritten_other.
Qed.

(** C9. [getAll] resolves to a fresh array, different from the internal
    one and from every array allocated before, holding the stored entities
    in order.  Whatever content the caller then gives the returned array,
    the next [getAll] still yields the stored entities and the next
    [count] their number. *)
Theorem in_memory_getAll_copy w this es :
  arrays w !! entities this = Some es →
  ∃ r w',
    getAll (Err := Err) this w = Ok r w' ∧
    arrays w' !! r = Some es ∧
    r ≠ entities this ∧
    arrays w !! r = None ∧
    arrays w' !! entities this = Some es ∧
    ∀ mutated : list T,
      let w'' := overwritten w' r mutated in
      arrays w'' !! r = Some mutated ∧
      (∃ r2 w3,
         getAll (Err := Err) this w'' = Ok r2 w3 ∧
         arrays w3 !! r2 = Some es) ∧
      count (Err := Err) this w'' = Ok (Z.of_nat (length es)) w''.
Proof.
  intros H. pose proof (lookup_valid _ _ _ H) as Hl.
  exists (length (arrays w)), (allocated w [es]).
  split; [by apply getAll_run|].
  split; [apply allocated_first|].
  split; [lia|].
  split; [by apply lookup_ge_None|].
  split; [by apply allocated_old|].
  intros mutated w''.
  assert (arrays w'' !! entities this = Some es) as H''.
  { unfold w''. rewrite overwritten_other by lia. by apply allocated_old. }
  split.
  { unfold w''. eapply overwritten_same, allocated_first. }
  split.
  - eexists _, _. split; [by apply getAll_run|]. apply allocated_first.
  - by apply count_run.
Qed.
End InMemoryFacts.

(** ** Histories of the in-memory backend *)

Section HistoryFacts.
Context {T X Err : Type} (Object_is : T → T → bool).
Import InMemoryEntityStrategy History.
Implicit Types (w : World T X) (this : Self) (es : list T).

Lemma step_count w this es (op : Op) :
  arrays w !! entities this = Some es →
  ∃ r w' es',
    step (Err := Err) Object_is this op w = Ok r w' ∧
    arrays w' !! entities this = Some es' ∧
    Z.of_nat (length es') = Z.of_nat (length es) + delta (op, r).
Proof.
  intros H. destruct op as [e|e eq|old new eq]; unfold step.
  - erewrite bind_ok; [|by apply add_run].
    eexists _, _, _. split; [done|]. split; [by eapply overwritten_same|].
    rewrite length_app. simpl. lia.
  - pose proof (remove_run (Err := Err) Object_is w this es e eq H) as Hr. cbv zeta in Hr.
    set (p := λ x, default Object_is eq x e) in Hr.
    destruct (Z.eqb_spec (findIndex p es) (-1)) as [E|E];
      rewrite (bind_ok _ _ _ _ _ Hr); eexists _, _, _; (split; [done|]).
    + split; [done|]. simpl. lia.
    + split; [by eapply overwritten_same|].
      destruct (findIndex_range p es); [done|].
      rewrite length_splice_one by done. simpl. lia.
  - pose proof (update_run (Err := Err) Object_is w this es old new eq H) as Hr.
    cbv zeta in Hr.
    set (p := λ x, default Object_is eq x old) in Hr.
    destruct (Z.eqb_spec (findIndex p es) (-1)) as [E|E];
      rewrite (bind_ok _ _ _ _ _ Hr); eexists _, _, _; (split; [done|]).
    + split; [done|]. simpl. lia.
    + split; [by eapply overwritten_same|].
      rewrite length_insert. simpl. lia.
Qed.

Lemma run_count w this es (ops : list Op) :
  arrays w !! entities this = Some es →
  ∃ calls w' es',
    run (Err := Err) Object_is this ops w = Ok calls w' ∧
    calls.*1 = ops ∧
    arrays w' !! entities this = Some es' ∧
    Z.of_nat (length es') = Z.of_nat (length es) + live calls.
Proof.
  revert w es. induction ops as [|op ops IH]; intros w es H.
  - exists [], w, es. repeat split; [done|]. simpl. lia.
  - destruct (step_count w this es op H) as (r & w1 & es1 & Hstep & H1 & Hlen1).
    destruct (IH w1 es1 H1) as (calls & w2 & es2 & Hrun & Hops & H2 & Hlen2).
    exists ((op, r) :: calls), w2, es2.
    split. { cbn [run]. rewrite (bind_ok _ _ _ _ _ Hstep). by rewrite (bind_ok _ _ _ _ _ Hrun). }
    split; [simpl; by f_equal|]. split; [done|].
    cbn [live foldr]. fold (live calls). lia.
Qed.

(** C5. Start from a new in-memory backend and apply any sequence of
    [add], [remove] and [update] calls: all of them resolve, and [count]
    then resolves to the number of stored entities, which is the number of
    adds minus the number of removes that returned [true].  One more call
    changes the count by exactly +1 for an add, -1 for a remove that
    returns [true], and 0 for a remove that returns [false] or an
    update. *)
Theorem in_memory_count_history (w0 : World T X) (ops : list Op) (op : Op) :
  ∃ this w1 calls es r w2 n',
    (this ← new; calls ← run (Err := Err) Object_is this ops;
     mret (this, calls)) w0 = Ok (this, calls) w1 ∧
    calls.*1 = ops ∧
    arrays w1 !! entities this = Some es ∧
    count (Err := Err) this w1 = Ok (Z.of_nat (length es)) w1 ∧
    Z.of_nat (length es) = live calls ∧
    step (Err := Err) Object_is this op w1 = Ok r w2 ∧
    count (Err := Err) this w2 = Ok n' w2 ∧
    match op, r with
    | OpAdd _, _ => n' = Z.of_nat (length es) + 1
    | OpRemove _ _, Some true => n' = Z.of_nat (length es) - 1
    | OpRemove _ _, _ => n' = Z.of_nat (length es)
    | OpUpdate _ _ _, _ => n' = Z.of_nat (length es)
    end.
Proof.
  set (this := mkSelf (length (arrays w0))).
  assert (arrays (allocated w0 [[]]) !! entities this = Some (@nil T)) as H0
    by apply allocated_first.
  destruct (run_count _ this _ ops H0) as (calls & w1 & es & Hrun & Hops & H1 & Hlen).
  destruct (step_count w1 this es op H1) as (r & w2 & es2 & Hstep & H2 & Hlen2).
  exists this, w1, calls, es, r, w2, (Z.of_nat (length es2)).
  split.
  { rewrite (bind_ok _ _ _ _ _ (new_run w0)). fold this.
    by rewrite (bind_ok _ _ _ _ _ Hrun). }
  split; [done|]. split; [done|]. split; [by apply count_run|].
  split; [simpl in Hlen; lia|]. split; [done|]. split; [by apply count_run|].
  destruct op as [e|e eq|old new eq], r as [[]|]; simpl in Hlen2; lia.
Qed.
End HistoryFacts.

(** ** Requests past the last page *)

Section PastTheEnd.
Context {T X Err : Type}.
Import InMemoryEntityStrategy.
Implicit Types (w : World T X) (this : Self) (xs es : list T).

Lemma paginate_past_end w l xs (reqPage reqSize : Z) :
  arrays w !! l = Some xs →
  xs ≠ [] →
  let last := Z.max 1 (Math_ceil_div (Z.of_nat (length xs)) (Z.max 1 reqSize)) in
  last < reqPage →
  ∃ r w' ys,
    paginate (Err := Err) l (Some reqPage) (Some reqSize) w = Ok r w' ∧
    totalPages r = last ∧
    page r = last ∧
    arrays w' !! items r = Some ys ∧
    ys = window xs ((last - 1) * pageSize r) (last * pageSize r) ∧
    ys = drop (Z.to_nat ((last - 1) * pageSize r)) xs ∧
    ys ≠ [].
Proof.
  intros H Hne last Hpast.
  eexists _, _, _. split; [by apply paginate_run|].
  cbn [totalPages page items pageSize arrays allocated default from_option id].
  set (ps := Z.max 1 reqSize) in *. fold last.
  set (n := Z.of_nat (length xs)) in *.
  assert (0 < n) by (destruct xs; [done|simpl in n; lia]).
  pose proof (Math_ceil_div_bounds n ps ltac:(lia)) as [Hlo Hhi].
  assert (last = Math_ceil_div n ps) as Elast by (unfold last; nia).
  replace (Z.min (Z.max 1 reqPage) last) with last by lia.
  split; [done|]. split; [done|].
  split; [by apply list_lookup_middle|]. fold ps.
  assert (slice xs ((last - 1) * ps) ((last - 1) * ps + ps)
          = drop (Z.to_nat ((last - 1) * ps)) xs) as ->.
  { rewrite slice_window by nia. apply take_ge. rewrite length_drop. nia. }
  split.
  { unfold window. symmetry. apply take_ge. rewrite length_drop. nia. }
  split; [done|].
  intros E. apply (f_equal length) in E. rewrite length_drop in E.
  simpl in E. nia.
Qed.

(** C6. For a non-empty sequence and a requested page above [totalPages],
    [paginate] resolves with [page = totalPages] and with the last page's
    items, which are the non-empty tail of the sequence from index
    [(totalPages-1)*pageSize]; the in-memory [findPage] does the same on
    its filtered sequence. *)
Theorem page_past_end_is_last_page w l xs (reqPage reqSize : Z)
    wm this es (options : QueryOptions T) :
  arrays w !! l = Some xs →
  xs ≠ [] →
  let last := Z.max 1 (Math_ceil_div (Z.of_nat (length xs)) (Z.max 1 reqSize)) in
  last < reqPage →
  arrays wm !! entities this = Some es →
  filtered_contents (Some options) es = xs →
  default 1 (opt_page options) = reqPage →
  default 10 (opt_pageSize options) = reqSize →
  (∃ r w' ys,
     paginate (Err := Err) l (Some reqPage) (Some reqSize) w = Ok r w' ∧
     totalPages r = last ∧
     page r = totalPages r ∧
     arrays w' !! items r = Some ys ∧
     ys = window xs ((last - 1) * pageSize r) (last * pageSize r) ∧
     ys = drop (Z.to_nat ((last - 1) * pageSize r)) xs ∧
     ys ≠ []) ∧
  (∃ r w' ys,
     findPage (Err := Err) this options wm = Ok r w' ∧
     totalPages r = last ∧
     page r = totalPages r ∧
     arrays w' !! items r = Some ys ∧
     ys = window xs ((last - 1) * pageSize r) (last * pageSize r) ∧
     ys = drop (Z.to_nat ((last - 1) * pageSize r)) xs ∧
     ys ≠ []).
Proof.
  intros H Hne last Hpast Hm Hxs Hpage Hsize. split.
  - destruct (paginate_past_end w l xs reqPage reqSize H Hne Hpast)
      as (r & w' & ys & Hrun & Htp & Hp & Hrest).
    exists r, w', ys. split; [done|]. split; [done|]. split; [congruence|done].
  - destruct (findPage_paginate (Err := Err) wm this es options Hm)
      as (filtered & wf & Hf & ->).
    rewrite Hxs in Hf. rewrite Hpage, Hsize.
    destruct (paginate_past_end wf filtered xs reqPage reqSize Hf Hne Hpast)
      as (r & w' & ys & Hrun & Htp & Hp & Hrest).
    exists r, w', ys. split; [done|]. split; [done|]. split; [congruence|done].
Qed.
End PastTheEnd.

(** ** management-entity.ts *)

Section ManagerFacts.
Context {T X X' Err : Type}.
Import ManagementEntity.
Implicit Types (w : World T X) (this : Self (T := T) (X := X) (Err := Err)).

(** Fields of two page results agree, and so do the contents of their
    item arrays, each read in its own store. *)
Lemma paginate_same_content w (v : World T X') l1 l2 xs
    (reqPage reqSize : option Z) :
  arrays w !! l1 = Some xs →
  arrays v !! l2 = Some xs →
  ∃ r1 w' r2 v' ys,
    paginate (Err := Err) l1 reqPage reqSize w = Ok r1 w' ∧
    paginate (Err := Err) l2 reqPage reqSize v = Ok r2 v' ∧
    arrays w' !! items r1 = Some ys ∧
    arrays v' !! items r2 = Some ys ∧
    page r1 = page r2 ∧ pageSize r1 = pageSize r2 ∧
    totalItems r1 = totalItems r2 ∧ totalPages r1 = totalPages r2 ∧
    hasNext r1 = hasNext r2 ∧ hasPrev r1 = hasPrev r2.
Proof.
  intros H1 H2. eexists _, _, _, _, _.
  split; [by apply paginate_run|]. split; [by apply paginate_run|].
  split; [by apply list_lookup_middle|].
  split; [by apply list_lookup_middle|]. done.
Qed.

(** Without a native [findPage], the manager runs [paginate] on whatever
    [findEntities] resolves to. *)
Lemma findEntitiesPage_fallback w this (options : QueryOptions T) filtered w1 :
  findPage (strategy this) = None →
  findEntities this (Some options) w = Ok filtered w1 →
  findEntitiesPage this options w
  = paginate filtered
      (Some (default 1 (opt_page options)))
      (Some (default 10 (opt_pageSize options))) w1.
Proof.
  intros Hnone Hfind. unfold findEntitiesPage. rewrite Hnone.
  by rewrite (bind_ok _ _ _ _ _ Hfind).
Qed.

(** C1. Take a manager whose strategy has no native [findPage], over the
    entity sequence [es]: either the strategy has no native [find] and its
    [getAll] resolves to an array holding [es], or its native [find]
    resolves to an array holding the filter engine's result on [es].  Then
    [findEntitiesPage] resolves, and its items, [totalItems] and
    [totalPages] (and the other fields) are those the in-memory backend's
    native [findPage] resolves to for the same options over [es]. *)
Theorem fallback_page_matches_in_memory w this (options : QueryOptions T)
    (es : list T) (wm : World T X') (mem : InMemoryEntityStrategy.Self) :
  findPage (strategy this) = None →
  match find (strategy this) with
  | None =>
      ∃ all w1, getAll (strategy this) w = Ok all w1 ∧
                arrays w1 !! all = Some es
  | Some find =>
      ∃ found w1, find (Some options) w = Ok found w1 ∧
                  arrays w1 !! found
                  = Some (filtered_contents (Some options) es)
  end →
  arrays wm !! InMemoryEntityStrategy.entities mem = Some es →
  ∃ r w' r' wm' ys,
    findEntitiesPage this options w = Ok r w' ∧
    InMemoryEntityStrategy.findPage (Err := Err) mem options wm = Ok r' wm' ∧
    arrays w' !! items r = Some ys ∧
    arrays wm' !! items r' = Some ys ∧
    totalItems r = totalItems r' ∧
    totalPages r = totalPages r' ∧
    page r = page r' ∧ pageSize r = pageSize r' ∧
    hasNext r = hasNext r' ∧ hasPrev r = hasPrev r'.
Proof.
  intros Hnone Hsrc Hm.
  assert (∃ filtered w1,
            findEntities this (Some options) w = Ok filtered w1 ∧
            arrays w1 !! filtered
            = Some (filtered_contents (Some options) es))
    as (filtered & w1 & Hfind & Hf).
  { unfold findEntities. destruct (find (strategy this)) as [f|].
    - exact Hsrc.
    - destruct Hsrc as (all & w1 & Hall & Hes).
      destruct (applyFunctionalFilters_contents (Err := Err) w1 all es
                  (Some options) Hes) as (r & w2 & Hrun & Hr).
      exists r, w2. split; [|done]. by rewrite (bind_ok _ _ _ _ _ Hall). }
  destruct (findPage_paginate (Err := Err) wm mem es options Hm)
    as (filtered' & wf & Hf' & ->).
  rewrite (findEntitiesPage_fallback _ _ _ _ _ Hnone Hfind).
  destruct (paginate_same_content w1 wf filtered filtered' _
              (Some (default 1 (opt_page options)))
              (Some (default 10 (opt_pageSize options))) Hf Hf')
    as (r1 & w1' & r2 & w2' & ys & Hp1 & Hp2 & Hi1 & Hi2 & Hfields).
  exists r1, w1', r2, w2', ys.
  destruct Hfields as (? & ? & ? & ? & ? & ?). by repeat split.
Qed.
End ManagerFacts.

(** ** strategies/typeorm.strategy.ts *)

Section TypeOrmFacts.
Context {V R Err FindOptions : Type}.
Import TypeOrmEntityStrategy.
Variable Object_is : gmap string V → gmap string V → bool.
Implicit Types (this : Self (V := V) (R := R) (Err := Err)
                         (FindOptions := FindOptions)).
Implicit Types (s : R) (equalsFn : option (gmap string V → gmap string V → bool)).

Lemma try_catch_ok {A} (body handler : M R Err A) s a s' :
  body s = Ok a s' → try_catch body handler s = Ok a s'.
Proof. intros H. unfold try_catch. by rewrite H. Qed.

Lemma try_catch_fault {A} (body handler : M R Err A) s e s' :
  body s = Fault e s' → try_catch body handler s = handler s'.
Proof. intros H. unfold try_catch. by rewrite H. Qed.

(** C8. When the repository's [remove] faults on the entity, the strategy
    scans the result of the repository's [find] with the equality policy.
    With no match it resolves to [false]: the original fault is not
    propagated.  With a match it calls the repository's [remove] on the
    match, and resolves to [true] once that removal is done. *)
Theorem typeorm_remove_fallback this entity equalsFn s e s1 all s2 :
  repo_remove (repo this) entity s = Fault e s1 →
  repo_find (repo this) None s1 = Ok all s2 →
  match List.find (λ x, default Object_is equalsFn x entity) all with
  | None => remove Object_is this entity equalsFn s = Ok false s2
  | Some match_ =>
      remove Object_is this entity equalsFn s
      = (_ ← repo_remove (repo this) match_; mret true) s2 ∧
      ∀ u s3,
        repo_remove (repo this) match_ s2 = Ok u s3 →
        remove Object_is this entity equalsFn s = Ok true s3
  end.
Proof.
  intros Hprimary Hscan. unfold remove.
  erewrite try_catch_fault; [|by eapply bind_fault].
  rewrite (bind_ok _ _ _ _ _ Hscan).
  destruct (List.find _ all) as [m|]; [|done].
  split; [done|]. intros u s3 Hrm. by rewrite (bind_ok _ _ _ _ _ Hrm).
Qed.

Lemma typeorm_update_primary this oldEntity newEntity equalsFn s u s1 :
  repo_save (repo this) (spread2 oldEntity newEntity) s = Ok u s1 →
  update Object_is this oldEntity newEntity equalsFn s = Ok true s1.
Proof.
  intros H. unfold update. apply try_catch_ok. by rewrite (bind_ok _ _ _ _ _ H).
Qed.

Lemma typeorm_update_fallback this oldEntity newEntity equalsFn s e s1 :
  repo_save (repo this) (spread2 oldEntity newEntity) s = Fault e s1 →
  update Object_is this oldEntity newEntity equalsFn s
  = (all ← repo_find (repo this) None;
     match List.find (λ x, default Object_is equalsFn x oldEntity) all with
     | None => mret false
     | Some match_ =>
         _ ← repo_save (repo this) (spread2 match_ newEntity);
         mret true
     end) s1.
Proof.
  intros H. unfold update. eapply try_catch_fault. by eapply bind_fault.
Qed.
End TypeOrmFacts.

(** ** [update] across the strategies *)

Section UpdateFacts.
Context {T X ErrM : Type} (Object_isM : T → T → bool).
Context {V R ErrR FindOptions : Type}
        (Object_isR : gmap string V → gmap string V → bool).
Context {U D ErrS : Type} (Object_isS : U → U → bool).

Lemma in_memory_update_found
    (w : World T X) (mem : InMemoryEntityStrategy.Self) es
    (equalsFn : option (T → T → bool)) oldEntity newEntity :
  arrays w !! InMemoryEntityStrategy.entities mem = Some es →
  ∃ b w',
    InMemoryEntityStrategy.update (Err := ErrM) Object_isM mem
      oldEntity newEntity equalsFn w = Ok b w' ∧
    (b = true ↔
     ∃ x, x ∈ es ∧ default Object_isM equalsFn x oldEntity = true) ∧
    (b = true →
     ∃ (i : nat) x,
       es !! i = Some x ∧
       default Object_isM equalsFn x oldEntity = true ∧
       (∀ (j : nat) y, (j < i)%nat → es !! j = Some y →
          default Object_isM equalsFn y oldEntity = false) ∧
       arrays w' !! InMemoryEntityStrategy.entities mem
       = Some (<[i := newEntity]> es) ∧
       <[i := newEntity]> es !! i = Some newEntity) ∧
    (b = false → w' = w).
Proof.
  intros H.
  pose proof (update_run (Err := ErrM) Object_isM w mem es
                oldEntity newEntity equalsFn H) as Hrun.
  cbv zeta in Hrun.
  set (p := λ e, default Object_isM equalsFn e oldEntity) in *.
  destruct (Z.eqb_spec (findIndex p es) (-1)) as [E|E].
  - exists false, w. split; [done|]. split; [|done].
    split; [done|]. intros (x & Hx & Hpx).
    apply findIndex_none in E. rewrite Forall_forall in E.
    specialize (E x Hx). unfold p in E. congruence.
  - eexists true, _. split; [done|].
    destruct (findIndex_first p es _ eq_refl E) as (x & Hx & Hpx & Hbefore).
    split; [|split; [|done]].
    + split; [|done]. intros _. exists x. split; [|done].
      apply list_elem_of_lookup. by eexists.
    + intros _. exists (Z.to_nat (findIndex p es)), x.
      split; [done|]. split; [done|]. split.
      { intros j y Hj Hy. rewrite Forall_forall in Hbefore. apply Hbefore.
        apply list_elem_of_lookup. exists j. by rewrite lookup_take_lt. }
      split; [by eapply (overwritten_same w)|].
      apply list_lookup_insert_eq. by eapply lookup_lt_Some.
Qed.

(** C4 (as amended). The in-memory strategy's [update] locates [oldEntity]
    with the equality policy, puts [newEntity] itself in the place of the
    first match, resolves to [true] exactly when there is a match, and
    always resolves.  The repository-style strategy first saves the merge
    of [oldEntity] and [newEntity] and resolves to [true] when that save
    succeeds; when it faults, the strategy scans the repository's [find]
    result with the equality policy, resolves to [false] without a match,
    and otherwise saves the merge of the match and [newEntity] and
    resolves to [true].  The SQL strategy's [update] is its adapter's. *)
Theorem update_across_strategies
    (w : World T X) (mem : InMemoryEntityStrategy.Self) es
    (equalsM : option (T → T → bool)) (oldM newM : T)
    (orm : TypeOrmEntityStrategy.Self (V := V) (R := R) (Err := ErrR)
             (FindOptions := FindOptions))
    (equalsR : option (gmap string V → gmap string V → bool))
    (oldR newR : gmap string V) (s : R)
    (sql : SqlEntityStrategy.Self (T := U) (R := D) (Err := ErrS))
    (equalsS : option (U → U → bool)) (oldS newS : U) :
  arrays w !! InMemoryEntityStrategy.entities mem = Some es →
  (∃ b w',
     InMemoryEntityStrategy.update (Err := ErrM) Object_isM mem
       oldM newM equalsM w = Ok b w' ∧
     (b = true ↔ ∃ x, x ∈ es ∧ default Object_isM equalsM x oldM = true) ∧
     (b = true →
      ∃ (i : nat) x,
        es !! i = Some x ∧
        default Object_isM equalsM x oldM = true ∧
        (∀ (j : nat) y, (j < i)%nat → es !! j = Some y →
           default Object_isM equalsM y oldM = false) ∧
        arrays w' !! InMemoryEntityStrategy.entities mem
        = Some (<[i := newM]> es) ∧
        <[i := newM]> es !! i = Some newM) ∧
     (b = false → w' = w)) ∧
  (let update := TypeOrmEntityStrategy.update Object_isR orm oldR newR equalsR in
   let repo := TypeOrmEntityStrategy.repo orm in
   match TypeOrmEntityStrategy.repo_save repo
           (TypeOrmEntityStrategy.spread2 oldR newR) s with
   | Ok _ s1 => update s = Ok true s1
   | Fault _ s1 =>
       match TypeOrmEntityStrategy.repo_find repo None s1 with
       | Fault e s2 => update s = Fault e s2
       | Ok all s2 =>
           match List.find (λ x, default Object_isR equalsR x oldR) all with
           | None => update s = Ok false s2
           | Some match_ =>
               match TypeOrmEntityStrategy.repo_save repo
                       (TypeOrmEntityStrategy.spread2 match_ newR) s2 with
               | Ok _ s3 => update s = Ok true s3
               | Fault e s3 => update s = Fault e s3
               end
           end
       end
   end) ∧
  SqlEntityStrategy.update Object_isS sql oldS newS equalsS
  = SqlEntityStrategy.adapter_update (SqlEntityStrategy.adapter sql)
      oldS newS (default Object_isS equalsS).
Proof.
  intros H. split; [by apply in_memory_update_found|]. split; [|done].
  cbv zeta.
  destruct (TypeOrmEntityStrategy.repo_save _ _ s) as [u s1|e s1] eqn:Hsave.
  { by eapply typeorm_update_primary. }
  rewrite (typeorm_update_fallback Object_isR _ _ _ _ _ _ _ Hsave).
  destruct (TypeOrmEntityStrategy.repo_find _ None s1) as [all s2|e' s2] eqn:Hfind.
  - rewrite (bind_ok _ _ _ _ _ Hfind).
    destruct (List.find _ all) as [m|]; [|done].
    destruct (TypeOrmEntityStrategy.repo_save _ _ s2) as [u s3|e' s3] eqn:Hsave2.
    + by rewrite (bind_ok _ _ _ _ _ Hsave2).
    + by rewrite (bind_fault _ _ _ _ _ Hsave2).
  - by rewrite (bind_fault _ _ _ _ _ Hfind).
Qed.
End UpdateFacts.

(** * Scenarios *)

Section Scenarios.
Context {T X Err : Type}.

(** An empty sequence gives page 1 of 1, with no items and no neighbours,
    whatever was requested. *)
Lemma paginate_empty (w : World T X) l (reqPage reqSize : option Z) :
  arrays w !! l = Some [] →
  ∃ r w',
    paginate (Err := Err) l reqPage reqSize w = Ok r w' ∧
    page r = 1 ∧ totalItems r = 0 ∧ totalPages r = 1 ∧
    arrays w' !! items r = Some [] ∧
    hasNext r = false ∧ hasPrev r = false.
Proof.
  intros H. eexists _, _. split; [by apply paginate_run|].
  cbn [page totalItems totalPages items hasNext hasPrev arrays allocated
       length Z.of_nat].
  set (ps := Z.max 1 (default 10 reqSize)).
  pose proof (Math_ceil_div_bounds 0 ps ltac:(lia)).
  change (Z.of_nat 0) with 0.
  assert (Math_ceil_div 0 ps = 0) as -> by nia.
  replace (Z.min (Z.max 1 (default 1 reqPage)) (Z.max 1 0)) with 1 by lia.
  repeat split; try done.
  rewrite list_lookup_middle by done. f_equal.
  unfold slice. by rewrite drop_nil, take_nil.
Qed.

(** [clearEntities] on a strategy without [clear] does nothing. *)
Lemma clearEntities_without_clear (w : World T X)
    (this : ManagementEntity.Self (T := T) (X := X) (Err := Err)) :
  ManagementEntity.clear (ManagementEntity.strategy this) = None →
  ManagementEntity.clearEntities this w = Ok () w.
Proof. intros H. unfold ManagementEntity.clearEntities. by rewrite H. Qed.
End Scenarios.

Section RowScenarios.
Import Samples.
Local Open Scope Z_scope.

(** Three entities added, equality by id: updating the one with id 2
    resolves to [true] and [getOne] then finds the new entity. *)
Example update_then_getOne :
  let row (i : Z) : Row := {[ "id" := i ]} in
  let named : Row := <[ "name" := 7 ]> {[ "id" := 2 ]} in
  (this ← InMemoryEntityStrategy.new;
   _ ← InMemoryEntityStrategy.add this (row 1);
   _ ← InMemoryEntityStrategy.add this (row 2);
   _ ← InMemoryEntityStrategy.add this (row 3);
   updated ← InMemoryEntityStrategy.update same_row this (row 2) named
               (Some same_id);
   found ← InMemoryEntityStrategy.getOne this (has_id 2);
   n ← InMemoryEntityStrategy.count this;
   mret (updated, found, n)) (mkWorld [] () : World Row ())
  = Ok (E := string) (true, Some named, 3)
      (mkWorld [[row 1; named; row 3]] ()).
Proof. vm_compute. reflexivity. Qed.

(** Twelve entities in pages of five: the third page has two items. *)
Example third_page_of_twelve :
  (this ← InMemoryEntityStrategy.new;
   _ ← History.run Z.eqb this (map History.OpAdd (map Z.of_nat (seq 1 12)));
   r ← InMemoryEntityStrategy.findPage this
         (mkQueryOptions (Some 3) (Some 5) None None None);
   shown ← Array_read (items r);
   mret (shown, page r, totalPages r, hasNext r, hasPrev r))
    (mkWorld [] () : World Z ())
  = Ok (E := string) ([11; 12], 3, 3, false, true)
      (mkWorld [map Z.of_nat (seq 1 12); map Z.of_nat (seq 1 12); [11; 12]] ()).
Proof. vm_compute. reflexivity. Qed.
End RowScenarios.

(** * Worked instances *)

Section Instances.
Import Samples.
Local Open Scope Z_scope.

Lemma paginate_page_result_witness :
  let xs := [1; 2; 3; 4; 5; 6; 7; 8; 9; 10; 11; 12] in
  arrays (numbers xs) !! 0%nat = Some xs ∧
  ∃ r w',
    paginate (Err := string) 0%nat (Some 3) (Some 5) (numbers xs) = Ok r w' ∧
    page r = 3 ∧ pageSize r = 5 ∧ totalItems r = 12 ∧ totalPages r = 3 ∧
    arrays w' !! items r = Some [11; 12] ∧
    hasNext r = false ∧ hasPrev r = true.
Proof.
  intros xs. split; [reflexivity|].
  destruct (paginate_page_result (Err := string) (numbers xs) 0%nat xs 3 5
              eq_refl) as (r & w' & Hrun & _).
  exists r, w'. split; [exact Hrun|].
  vm_compute in Hrun. injection Hrun as <- <-.
  repeat split; reflexivity.
Defined.

Lemma Z_sub_consistent : consistent_comparator Z.sub.
Proof.
  split.
  - intros a b. rewrite <-Z.sgn_opp. f_equal. lia.
  - intros a b c. lia.
Qed.

Lemma applyFunctionalFilters_filters_sorts_witness :
  let es := [5; 3; 8; 1; 9; 2; 7] in
  let options :=
    Some (mkQueryOptions None None (Some (λ n : Z, 2 <? n)) (Some [Z.odd])
            (Some Z.sub)) in
  arrays (numbers es) !! 0%nat = Some es ∧
  ∃ r w',
    applyFunctionalFilters (Err := string) 0%nat options (numbers es)
    = Ok r w' ∧
    arrays w' !! r = Some [3; 5; 7; 9] ∧
    StronglySorted (may_precede Z.sub) [3; 5; 7; 9] ∧
    arrays w' !! 0%nat = Some es.
Proof.
  intros es options. split; [reflexivity|].
  destruct (applyFunctionalFilters_filters_sorts (Err := string)
              (numbers es) 0%nat es options eq_refl)
    as (r & w' & ys & f & Hrun & Hys & Hf & [Hperm Hsorted] & _).
  exists r, w'. split; [exact Hrun|].
  destruct (Hsorted Z_sub_consistent) as [Hs _].
  vm_compute in Hrun. injection Hrun as <- <-.
  vm_compute in Hys. injection Hys as <-.
  split; [reflexivity|]. split; [exact Hs|reflexivity].
Defined.

Lemma fallback_page_matches_in_memory_witness :
  let this := ManagementEntity.mkSelf (plain_strategy 0%nat) Z.eqb in
  let mem := InMemoryEntityStrategy.mkSelf 0%nat in
  let es := [5; 3; 8; 1; 9; 2; 7] in
  let options :=
    mkQueryOptions (Some 2) (Some 2) (Some (λ n : Z, 2 <? n)) None
      (Some Z.sub) in
  ManagementEntity.findPage (ManagementEntity.strategy this) = None ∧
  ManagementEntity.find (ManagementEntity.strategy this) = None ∧
  ManagementEntity.getAll (ManagementEntity.strategy this) (numbers es)
  = Ok 1%nat (allocated (numbers es) [es]) ∧
  arrays (numbers es) !! 0%nat = Some es ∧
  ∃ r w' r' wm',
    ManagementEntity.findEntitiesPage this options (numbers es) = Ok r w' ∧
    InMemoryEntityStrategy.findPage (Err := string) mem options (numbers es)
    = Ok r' wm' ∧
    arrays w' !! items r = Some [7; 8] ∧
    arrays wm' !! items r' = Some [7; 8] ∧
    totalItems r = 5 ∧ totalItems r' = 5 ∧
    totalPages r = 3 ∧ totalPages r' = 3.
Proof.
  intros this mem es options.
  split; [reflexivity|]. split; [reflexivity|]. split; [reflexivity|].
  split; [reflexivity|].
  destruct (fallback_page_matches_in_memory (X' := ()) (numbers es) this
              options es (numbers es) mem eq_refl)
    as (r & w' & r' & wm' & ys & Hrun & Hrun' & Hi & Hi' & Hti & Htp & _).
  { eexists _, _. split; reflexivity. }
  { reflexivity. }
  exists r, w', r', wm'. split; [exact Hrun|]. split; [exact Hrun'|].
  vm_compute in Hrun'. injection Hrun' as <- <-.
  vm_compute in Hi'. injection Hi' as <-.
  rewrite Hti, Htp. repeat split; (exact Hi || reflexivity).
Defined.

Lemma page_past_end_is_last_page_witness :
  let xs := [1; 2; 3; 4; 5; 6; 7; 8; 9; 10; 11; 12] in
  let this := InMemoryEntityStrategy.mkSelf 0%nat in
  let options := mkQueryOptions (Some 7) (Some 5) None None None in
  arrays (numbers xs) !! 0%nat = Some xs ∧
  xs ≠ [] ∧
  Z.max 1 (Math_ceil_div (Z.of_nat (length xs)) (Z.max 1 5)) < 7 ∧
  filtered_contents (Some options) xs = xs ∧
  (∃ r w',
     paginate (Err := string) 0%nat (Some 7) (Some 5) (numbers xs) = Ok r w' ∧
     page r = 3 ∧ totalPages r = 3 ∧
     arrays w' !! items r = Some [11; 12]) ∧
  (∃ r w',
     InMemoryEntityStrategy.findPage (Err := string) this options (numbers xs)
     = Ok r w' ∧
     page r = 3 ∧ totalPages r = 3 ∧
     arrays w' !! items r = Some [11; 12]).
Proof.
  intros xs this options.
  assert (xs ≠ []) as Hne by discriminate.
  assert (Z.max 1 (Math_ceil_div (Z.of_nat (length xs)) (Z.max 1 5)) < 7)
    as Hpast by (vm_compute; reflexivity).
  split; [reflexivity|]. split; [exact Hne|]. split; [exact Hpast|].
  split; [reflexivity|].
  destruct (page_past_end_is_last_page (Err := string) (numbers xs) 0%nat xs
              7 5 (numbers xs) this xs options
              eq_refl Hne Hpast eq_refl eq_refl eq_refl eq_refl)
    as [(r & w' & ys & Hrun & _) (r' & w'' & ys' & Hrun' & _)].
  split.
  - exists r, w'. split; [exact Hrun|].
    vm_compute in Hrun. injection Hrun as <- <-. repeat split; reflexivity.
  - exists r', w''. split; [exact Hrun'|].
    vm_compute in Hrun'. injection Hrun' as <- <-. repeat split; reflexivity.
Defined.

Lemma in_memory_no_match_unchanged_witness :
  let this := InMemoryEntityStrategy.mkSelf 0%nat in
  let w := numbers [1; 2; 3] in
  arrays w !! 0%nat = Some [1; 2; 3] ∧
  (∀ e, e ∈ [1; 2; 3] → Z.eqb e 9 = false) ∧
  InMemoryEntityStrategy.remove (Err := string) Z.eqb this 9 None w
  = Ok false w ∧
  InMemoryEntityStrategy.update (Err := string) Z.eqb this 9 4 None w
  = Ok false w.
Proof.
  intros this w.
  assert (∀ e, e ∈ [1; 2; 3] → Z.eqb e 9 = false) as Hno.
  { apply Forall_forall. repeat constructor. }
  split; [reflexivity|]. split; [exact Hno|].
  exact (in_memory_no_match_unchanged (Err := string) Z.eqb w this [1; 2; 3]
           None 9 4 eq_refl Hno).
Defined.

Lemma in_memory_update_in_place_witness :
  let this := InMemoryEntityStrategy.mkSelf 0%nat in
  let es := [1; 2; 3; 2] in
  arrays (numbers es) !! 0%nat = Some es ∧
  InMemoryEntityStrategy.update (Err := string) Z.eqb this 2 7 None
    (numbers es) = Ok true (numbers [1; 7; 3; 2]) ∧
  ∃ (i : nat) (x : Z),
    es !! i = Some x ∧
    Z.eqb x 2 = true ∧
    (∀ (j : nat) y, (j < i)%nat → es !! j = Some y → Z.eqb y 2 = false) ∧
    arrays (numbers [1; 7; 3; 2]) !! 0%nat = Some (<[i := 7]> es) ∧
    <[i := 7]> es !! i = Some 7 ∧
    (∀ j : nat, j ≠ i → <[i := 7]> es !! j = es !! j) ∧
    length (<[i := 7]> es) = length es.
Proof.
  intros this es. split; [reflexivity|]. split; [reflexivity|].
  destruct (in_memory_update_in_place (Err := string) Z.eqb (numbers es) this
              es None 2 7 (numbers [1; 7; 3; 2]) eq_refl eq_refl)
    as (i & x & Hx & Hpx & Hfirst & Hstored & Hnew & Hothers & Hlen & _).
  by exists i, x.
Defined.

Lemma in_memory_getAll_copy_witness :
  let this := InMemoryEntityStrategy.mkSelf 0%nat in
  let w := numbers [1; 2; 3] in
  arrays w !! 0%nat = Some [1; 2; 3] ∧
  ∃ r w',
    InMemoryEntityStrategy.getAll (Err := string) this w = Ok r w' ∧
    r = 1%nat ∧
    arrays w' !! r = Some [1; 2; 3] ∧
    let w'' := overwritten w' r [9] in
    arrays w'' !! r = Some [9] ∧
    InMemoryEntityStrategy.count (Err := string) this w'' = Ok 3 w'' ∧
    ∃ r2 w3,
      InMemoryEntityStrategy.getAll (Err := string) this w'' = Ok r2 w3 ∧
      arrays w3 !! r2 = Some [1; 2; 3].
Proof.
  intros this w. split; [reflexivity|].
  destruct (in_memory_getAll_copy (Err := string) w this [1; 2; 3] eq_refl)
    as (r & w' & Hrun & Hcopy & Hne & Hfresh & Hkept & Hmut).
  exists r, w'. split; [exact Hrun|].
  destruct (Hmut [9]) as (Hr & Hget & Hcount).
  vm_compute in Hrun. injection Hrun as <- <-.
  split; [reflexivity|]. split; [exact Hcopy|].
  split; [exact Hr|]. split; [exact Hcount|exact Hget].
Defined.

Lemma typeorm_remove_fallback_witness :
  let this := TypeOrmEntityStrategy.mkSelf rows_repo in
  let bob : Row := {[ "name" := 7 ]} in
  let row1 : Row := <[ "name" := 5 ]> {[ "id" := 1 ]} in
  let row2 : Row := <[ "name" := 7 ]> {[ "id" := 2 ]} in
  TypeOrmEntityStrategy.repo_remove rows_repo bob [row1; row2]
  = Fault "missing primary key"%string [row1; row2] ∧
  TypeOrmEntityStrategy.repo_find rows_repo None [row1; row2]
  = Ok [row1; row2] [row1; row2] ∧
  List.find (λ x, same_name x bob) [row1; row2] = Some row2 ∧
  TypeOrmEntityStrategy.remove same_row this bob (Some same_name) [row1; row2]
  = Ok true [row1].
Proof.
  intros this bob row1 row2.
  assert (List.find (λ x, same_name x bob) [row1; row2] = Some row2) as Hfound
    by (vm_compute; reflexivity).
  split; [vm_compute; reflexivity|]. split; [reflexivity|].
  split; [exact Hfound|].
  pose proof (typeorm_remove_fallback same_row this bob (Some same_name)
                [row1; row2] "missing primary key"%string [row1; row2]
                [row1; row2] [row1; row2]
                ltac:(vm_compute; reflexivity) eq_refl) as H.
  cbn [default from_option id] in H. rewrite Hfound in H.
  destruct H as [_ H]. apply (H ()). vm_compute. reflexivity.
Defined.

(** On a repository that stores only the row with id 2, the repository-style
    [update] of a row with id 1 finds no stored row equal to the old entity
    under the equality policy and still resolves to [true]; what it saves
    is the merge of the old and the new entity, which keeps the old
    entity's ["age"] and so is not the new entity. *)
Lemma typeorm_update_merges_without_match :
  let this := TypeOrmEntityStrategy.mkSelf rows_repo in
  let stored : list Row := [ {[ "id" := 2 ]} ] in
  let oldEntity : Row := <[ "age" := 30 ]> {[ "id" := 1 ]} in
  let newEntity : Row := <[ "name" := 7 ]> {[ "id" := 1 ]} in
  let merged : Row := <[ "name" := 7 ]> (<[ "age" := 30 ]> {[ "id" := 1 ]}) in
  TypeOrmEntityStrategy.getAll this stored = Ok stored stored ∧
  List.find (λ e, same_id e oldEntity) stored = None ∧
  TypeOrmEntityStrategy.update same_row this oldEntity newEntity
    (Some same_id) stored
  = Ok true [ {[ "id" := 2 ]}; merged ] ∧
  merged ≠ newEntity ∧
  ¬ (∀ b s',
       TypeOrmEntityStrategy.update same_row this oldEntity newEntity
         (Some same_id) stored = Ok b s' →
       (b = true ↔ ∃ x, x ∈ stored ∧ same_id x oldEntity = true) ∧
       (b = true → newEntity ∈ s')).
Proof.
  intros this stored oldEntity newEntity merged.
  assert (TypeOrmEntityStrategy.update same_row this oldEntity newEntity
            (Some same_id) stored = Ok true [ {[ "id" := 2 ]}; merged ]) as Hrun
    by (vm_compute; reflexivity).
  split; [reflexivity|]. split; [vm_compute; reflexivity|].
  split; [exact Hrun|]. split.
  - intros E. apply (f_equal (λ m : Row, m !! "age"%string)) in E.
    vm_compute in E. discriminate.
  - intros Hclaim. destruct (Hclaim _ _ Hrun) as [[Hfound _] _].
    destruct (Hfound eq_refl) as (x & Hx & Hsame).
    apply list_elem_of_singleton in Hx. subst x.
    vm_compute in Hsame. discriminate.
Qed.

Lemma update_across_strategies_witness :
  let mem := InMemoryEntityStrategy.mkSelf 0%nat in
  let es := [1; 2; 3; 2] in
  let orm := TypeOrmEntityStrategy.mkSelf rows_repo in
  let bob : Row := {[ "name" := 7 ]} in
  let aged : Row := {[ "age" := 30 ]} in
  let row1 : Row := <[ "name" := 5 ]> {[ "id" := 1 ]} in
  let row2 : Row := <[ "name" := 7 ]> {[ "id" := 2 ]} in
  let sql := SqlEntityStrategy.mkSelf list_adapter in
  arrays (numbers es) !! 0%nat = Some es ∧
  InMemoryEntityStrategy.update (Err := string) Z.eqb mem 2 7 None (numbers es)
  = Ok true (numbers [1; 7; 3; 2]) ∧
  TypeOrmEntityStrategy.repo_save rows_repo
    (TypeOrmEntityStrategy.spread2 bob aged) [row1; row2]
  = Fault "missing primary key"%string [row1; row2] ∧
  TypeOrmEntityStrategy.update same_row orm bob aged (Some same_name)
    [row1; row2]
  = Ok true [row1; <[ "age" := 30 ]> row2] ∧
  SqlEntityStrategy.update Z.eqb sql 2 7 None [1; 2; 3; 2]
  = Ok true [1; 7; 3; 7].
Proof.
  intros mem es orm bob aged row1 row2 sql.
  destruct (update_across_strategies (ErrM := string) Z.eqb same_row Z.eqb
              (numbers es) mem es None 2 7
              orm (Some same_name) bob aged [row1; row2]
              sql None 2 7 eq_refl)
    as ((b & w' & Hmem & _) & Horm & Hsql).
  split; [reflexivity|]. split.
  { rewrite Hmem. vm_compute in Hmem. by injection Hmem as <- <-. }
  split; [vm_compute; reflexivity|]. split.
  { vm_compute. vm_compute in Horm. exact Horm. }
  rewrite Hsql. reflexivity.
Defined.
End Instances.

(** * Further properties of the code *)

(** ** utils/query-utils.ts *)

Section SortedInput.
Context {T : Type} (compareFn : T → T → Z).
Hypothesis Hcmp : consistent_comparator compareFn.

Lemma sort_of_sorted (l : list T) :
  Sorted (may_precede compareFn) l → sort compareFn l = l.
Proof.
  induction 1 as [|a l Hl IH Hhd]; [done|].
  cbn [sort foldr]. fold (sort compareFn l). rewrite IH.
  destruct Hhd as [|b l' Hab]; [done|].
  cbn [sort_insert]. unfold may_precede in Hab.
  by destruct (Z.leb_spec (compareFn a b) 0); [|lia].
Qed.

Lemma sort_sort (l : list T) :
  sort compareFn (sort compareFn l) = sort compareFn l.
Proof.
  apply sort_of_sorted, StronglySorted_Sorted. by apply sort_sorted.
Qed.
End SortedInput.

Section QueryUtilsMore.
Context {T X Err : Type}.
Implicit Types (w : World T X) (l : loc) (xs : list T).
Implicit Types (options : option (QueryOptions T)).

Lemma filter_all {A} (f : A → bool) (l : list A) :
  Forall (λ x, f x = true) l → List.filter f l = l.
Proof.
  induction 1 as [|x l Hx _ IH]; [done|]. simpl. by rewrite Hx, IH.
Qed.

Lemma kept_kept options xs : kept options (kept options xs) = kept options xs.
Proof.
  unfold kept. apply filter_all, List.Forall_forall.
  intros x Hx. by apply filter_In in Hx as [_ ?].
Qed.

Lemma kept_of_passing options xs :
  Forall (λ x, passesb options x = true) xs → kept options xs = xs.
Proof. apply filter_all. Qed.

Lemma filtered_contents_twice options xs :
  (∀ c, options ≫= sortBy = Some c → consistent_comparator c) →
  filtered_contents options (filtered_contents options xs)
  = filtered_contents options xs.
Proof.
  intros Hc. unfold filtered_contents.
  destruct (options ≫= sortBy) as [c|]; [|apply kept_kept].
  rewrite (kept_of_passing options (sort c _)).
  - apply sort_sort. by apply Hc.
  - rewrite (sort_perm c (kept options xs)).
    apply List.Forall_forall. intros x Hx.
    by apply filter_In in Hx as [_ ?].
Qed.

Lemma windows_concat xs (ps : nat) (k : nat) :
  concat (map (λ i : nat, take ps (drop (i * ps) xs)) (seq 0 k))
  = take (k * ps) xs.
Proof.
  induction k as [|k IH]; [done|].
  rewrite seq_S, map_app, concat_app, IH. simpl.
  rewrite app_nil_r, take_take_drop. f_equal. lia.
Qed.

Lemma pages_cover xs (reqSize : Z) :
  let ps := Z.max 1 reqSize in
  let tp := Z.max 1 (Math_ceil_div (Z.of_nat (length xs)) ps) in
  concat (map (λ i : nat, take (Z.to_nat ps) (drop (i * Z.to_nat ps) xs))
            (seq 0 (Z.to_nat tp))) = xs.
Proof.
  intros ps tp.
  pose proof (Math_ceil_div_bounds (Z.of_nat (length xs)) ps ltac:(lia))
    as [Hlo Hhi].
  rewrite windows_concat. apply take_ge. nia.
Qed.

Lemma paginate_page_at w l xs (reqSize : Z) (i : nat) :
  arrays w !! l = Some xs →
  let ps := Z.max 1 reqSize in
  let tp := Z.max 1 (Math_ceil_div (Z.of_nat (length xs)) ps) in
  Z.of_nat i < tp →
  ∃ r w',
    paginate (Err := Err) l (Some (Z.of_nat i + 1)) (Some reqSize) w
    = Ok r w' ∧
    page r = Z.of_nat i + 1 ∧
    totalPages r = tp ∧
    arrays w' !! items r
    = Some (take (Z.to_nat ps) (drop (i * Z.to_nat ps) xs)).
Proof.
  intros H ps tp Hlt.
  eexists _, _. split; [by apply paginate_run|].
  cbn [page totalPages items arrays allocated default from_option id].
  fold ps tp.
  replace (Z.min (Z.max 1 (Z.of_nat i + 1)) tp) with (Z.of_nat i + 1) by lia.
  split; [done|]. split; [done|].
  rewrite list_lookup_middle by done. f_equal.
  rewrite slice_window by nia.
  f_equal; [lia|]. f_equal. nia.
Qed.

(** X1. The pages of a sequence, in order, are a partition of it: page [i+1]
    of [totalPages] is what [paginate] resolves to when asked for it, and
    the pages put end to end give the sequence back, every entity once. *)
Theorem paginate_pages_partition w l xs (reqSize : Z) :
  arrays w !! l = Some xs →
  ∃ pages : list (list T),
    concat pages = xs ∧
    Z.of_nat (length pages)
    = Z.max 1 (Math_ceil_div (Z.of_nat (length xs)) (Z.max 1 reqSize)) ∧
    ∀ (i : nat) ys,
      pages !! i = Some ys →
      ∃ r w',
        paginate (Err := Err) l (Some (Z.of_nat i + 1)) (Some reqSize) w
        = Ok r w' ∧
        page r = Z.of_nat i + 1 ∧
        totalPages r = Z.of_nat (length pages) ∧
        arrays w' !! items r = Some ys.
Proof.
  intros H.
  set (ps := Z.max 1 reqSize).
  set (tp := Z.max 1 (Math_ceil_div (Z.of_nat (length xs)) ps)).
  exists (map (λ i : nat, take (Z.to_nat ps) (drop (i * Z.to_nat ps) xs))
            (seq 0 (Z.to_nat tp))).
  split; [apply pages_cover|].
  rewrite length_map, length_seq. split; [lia|].
  intros i ys Hi.
  apply list_lookup_fmap_Some in Hi as (j & -> & Hj).
  apply lookup_seq in Hj as [-> Hlt]. simpl.
  destruct (paginate_page_at w l xs reqSize i H)
    as (r & w' & Hrun & Hp & Htp & Hitems); [fold ps tp; lia|].
  exists r, w'. split; [done|]. split; [done|]. split; [|done].
  rewrite Htp. unfold tp, ps. lia.
Qed.

(** X2. A sequence no longer than the page size is one page: whatever page is
    asked for, page 1 of 1 comes back with all the entities and no
    neighbours. *)
Theorem paginate_single_page w l xs (reqPage reqSize : Z) :
  arrays w !! l = Some xs →
  Z.of_nat (length xs) ≤ Z.max 1 reqSize →
  ∃ r w',
    paginate (Err := Err) l (Some reqPage) (Some reqSize) w = Ok r w' ∧
    page r = 1 ∧ totalPages r = 1 ∧
    arrays w' !! items r = Some xs ∧
    hasNext r = false ∧ hasPrev r = false.
Proof.
  intros H Hfit. eexists _, _. split; [by apply paginate_run|].
  cbn [page totalPages items hasNext hasPrev arrays allocated default
       from_option id].
  set (ps := Z.max 1 reqSize) in *.
  set (n := Z.of_nat (length xs)) in *.
  pose proof (Math_ceil_div_bounds n ps ltac:(lia)) as [Hlo Hhi].
  assert (Z.max 1 (Math_ceil_div n ps) = 1) as -> by nia.
  replace (Z.min (Z.max 1 reqPage) 1) with 1 by lia.
  repeat split; try done.
  rewrite list_lookup_middle by done. f_equal.
  rewrite slice_window by lia. simpl. apply take_ge. lia.
Qed.

(** X3. When [hasNext] is set the page after the returned one exists and is
    not empty; when [hasPrev] is set the page before it is a full page. *)
Theorem paginate_neighbours w l xs (reqPage reqSize : Z) r w' :
  arrays w !! l = Some xs →
  paginate (Err := Err) l (Some reqPage) (Some reqSize) w = Ok r w' →
  (hasNext r = true →
   ∃ r2 w2 ys,
     paginate (Err := Err) l (Some (page r + 1)) (Some reqSize) w = Ok r2 w2 ∧
     page r2 = page r + 1 ∧ hasPrev r2 = true ∧
     arrays w2 !! items r2 = Some ys ∧ ys ≠ []) ∧
  (hasPrev r = true →
   ∃ r0 w0 ys,
     paginate (Err := Err) l (Some (page r - 1)) (Some reqSize) w = Ok r0 w0 ∧
     page r0 = page r - 1 ∧ hasNext r0 = true ∧
     arrays w0 !! items r0 = Some ys ∧
     Z.of_nat (length ys) = pageSize r).
Proof.
  intros H Hrun. rewrite (paginate_run _ _ _ _ _ H) in Hrun.
  injection Hrun as <- <-.
  cbn [hasNext hasPrev page pageSize default from_option id].
  set (ps := Z.max 1 reqSize).
  set (n := Z.of_nat (length xs)).
  set (tp := Z.max 1 (Math_ceil_div n ps)).
  set (rp := Z.min (Z.max 1 reqPage) tp).
  pose proof (Math_ceil_div_bounds n ps ltac:(lia)) as [Hlo Hhi].
  split.
  - intros Hnext%Z.ltb_lt.
    eexists _, _, _. split; [by apply paginate_run|].
    cbn [hasPrev page items arrays allocated default from_option id].
    fold ps n tp.
    replace (Z.min (Z.max 1 (rp + 1)) tp) with (rp + 1) by lia.
    split; [done|]. split; [apply Z.ltb_lt; lia|].
    split; [by apply list_lookup_middle|].
    rewrite slice_window by nia.
    intros E. apply (f_equal length) in E.
    rewrite length_take, length_drop in E. simpl in E. nia.
  - intros Hprev%Z.ltb_lt.
    eexists _, _, _. split; [by apply paginate_run|].
    cbn [hasNext page items arrays allocated default from_option id].
    fold ps n tp.
    replace (Z.min (Z.max 1 (rp - 1)) tp) with (rp - 1) by lia.
    split; [done|]. split; [apply Z.ltb_lt; lia|].
    split; [by apply list_lookup_middle|].
    rewrite slice_window by nia.
    rewrite length_take, length_drop. nia.
Qed.

(** X4. Without a predicate, filters and comparator (or without options at
    all) the result is a new array with the content of the input. *)
Theorem applyFunctionalFilters_without_criteria w l xs options :
  arrays w !! l = Some xs →
  options ≫= predicate = None →
  (options ≫= filters = None ∨ options ≫= filters = Some []) →
  options ≫= sortBy = None →
  ∃ r w',
    applyFunctionalFilters (Err := Err) l options w = Ok r w' ∧
    r ≠ l ∧
    arrays w' !! r = Some xs ∧
    arrays w' !! l = Some xs.
Proof.
  intros H Hp Hf Hs. pose proof (lookup_valid _ _ _ H).
  rewrite (applyFunctionalFilters_run _ _ _ _ H), Hs.
  eexists _, _. split; [done|]. split; [lia|].
  split; [|by apply allocated_old].
  rewrite allocated_first. f_equal. apply kept_of_passing.
  apply List.Forall_forall. intros x _. unfold passesb.
  destruct options as [o|]; simpl in *; [|done].
  rewrite Hp. by destruct Hf as [->| ->].
Qed.

(** X5. Filtering the result again with the same options changes nothing:
    the second result has the content of the first (for a comparator, a
    consistent one). *)
Theorem applyFunctionalFilters_twice w l xs options :
  arrays w !! l = Some xs →
  (∀ c, options ≫= sortBy = Some c → consistent_comparator c) →
  ∃ r w' r2 w2 ys,
    applyFunctionalFilters (Err := Err) l options w = Ok r w' ∧
    applyFunctionalFilters (Err := Err) r options w' = Ok r2 w2 ∧
    arrays w' !! r = Some ys ∧
    arrays w2 !! r2 = Some ys.
Proof.
  intros H Hc.
  destruct (applyFunctionalFilters_contents (Err := Err) w l xs options H)
    as (r & w' & Hrun & Hr).
  destruct (applyFunctionalFilters_contents (Err := Err) w' r _ options Hr)
    as (r2 & w2 & Hrun2 & Hr2).
  exists r, w', r2, w2, (filtered_contents options xs).
  rewrite filtered_contents_twice in Hr2 by done. done.
Qed.

(** X6. The predicate and the filters count only through their conjunction:
    two queries that the same entities pass, with the same comparator,
    give the same result, whatever the order of the filters and wherever
    a condition sits. *)
Theorem applyFunctionalFilters_conjunction w l xs options options' :
  arrays w !! l = Some xs →
  (∀ e, passes options e ↔ passes options' e) →
  options ≫= sortBy = options' ≫= sortBy →
  ∃ r w1 r' w2 ys,
    applyFunctionalFilters (Err := Err) l options w = Ok r w1 ∧
    applyFunctionalFilters (Err := Err) l options' w = Ok r' w2 ∧
    arrays w1 !! r = Some ys ∧
    arrays w2 !! r' = Some ys.
Proof.
  intros H Hsame Hsort.
  destruct (applyFunctionalFilters_contents (Err := Err) w l xs options H)
    as (r & w1 & Hrun & Hr).
  destruct (applyFunctionalFilters_contents (Err := Err) w l xs options' H)
    as (r' & w2 & Hrun' & Hr').
  exists r, w1, r', w2, (filtered_contents options xs).
  split; [done|]. split; [done|]. split; [done|].
  rewrite Hr'. f_equal. unfold filtered_contents. rewrite Hsort.
  assert (kept options' xs = kept options xs) as ->; [|done].
  unfold kept. apply filter_ext. intros e.
  apply eq_true_iff_eq. rewrite !passesb_spec. by rewrite Hsame.
Qed.
End QueryUtilsMore.

(** ** strategies/in-memory.strategy.ts *)

Section InMemoryMore.
Context {T X Err : Type} (Object_is : T → T → bool).
Import InMemoryEntityStrategy.
Implicit Types (w : World T X) (this : Self) (es : list T).
Implicit Types (equalsFn : option (T → T → bool)).

Lemma findIndex_snoc (p : T → bool) es e :
  Forall (λ x, p x = false) es → p e = true →
  findIndex p (es ++ [e]) = Z.of_nat (length es).
Proof.
  intros Hno He. induction Hno as [|x es Hx _ IH]; simpl; [by rewrite He|].
  rewrite Hx, IH. destruct (Z.eqb_spec (Z.of_nat (length es)) (-1)); lia.
Qed.

Lemma find_first (p : T → bool) es :
  match List.find p es with
  | Some x =>
      ∃ i : nat, es !! i = Some x ∧ p x = true ∧
        ∀ (j : nat) y, (j < i)%nat → es !! j = Some y → p y = false
  | None => ∀ y, y ∈ es → p y = false
  end.
Proof.
  induction es as [|x es IH]; simpl.
  - intros y Hy. by apply elem_of_nil in Hy.
  - destruct (p x) eqn:Hx.
    + exists 0%nat. repeat split; [done|]. intros j y Hj. lia.
    + destruct (List.find p es) as [z|].
      * destruct IH as (i & Hi & Hz & Hfirst). exists (S i).
        repeat split; [done..|]. intros [|j] y Hj Hy; simpl in Hy.
        -- congruence.
        -- apply (Hfirst j); [lia|done].
      * intros y [->|Hy]%elem_of_cons; [done|by apply IH].
Qed.

Lemma find_append (p : T → bool) es es' :
  List.find p (es ++ es')
  = match List.find p es with
    | Some x => Some x
    | None => List.find p es'
    end.
Proof. induction es as [|x es IH]; simpl; [done|]. by destruct (p x). Qed.

Lemma overwritten_back w l xs es :
  arrays w !! l = Some es → overwritten (overwritten w l xs) l es = w.
Proof.
  intros H. destruct w as [arr ext]. unfold overwritten. simpl in *.
  f_equal. rewrite list_insert_insert_eq. by apply list_insert_id.
Qed.

(** X7. [add] puts the entity at the end: the entities stored before keep
    their places, so a [getOne] that found an entity still finds the same
    one, and one that found none finds the new entity if it qualifies. *)
Theorem in_memory_add_appends w this es entity (p : Predicate T) :
  arrays w !! entities this = Some es →
  ∃ w',
    add (Err := Err) this entity w = Ok () w' ∧
    arrays w' !! entities this = Some (es ++ [entity]) ∧
    (∀ l, l ≠ entities this → arrays w' !! l = arrays w !! l) ∧
    (∀ x, getOne (Err := Err) this p w = Ok (Some x) w →
          getOne (Err := Err) this p w' = Ok (Some x) w') ∧
    (getOne (Err := Err) this p w = Ok None w →
     getOne (Err := Err) this p w'
     = Ok (if p entity then Some entity else None) w').
Proof.
  intros H. eexists. split; [by apply add_run|].
  assert (arrays (overwritten w (entities this) (es ++ [entity]))
            !! entities this = Some (es ++ [entity])) as H'
    by by eapply overwritten_same.
  split; [done|].
  split; [intros l Hl; by apply overwritten_other|].
  unfold getOne.
  rewrite (Array_find_run _ _ _ _ H), (Array_find_run _ _ _ _ H').
  rewrite find_append. split.
  - intros x [= ->]. done.
  - intros [= ->]. simpl. by destruct (p entity).
Qed.

(** X8. A successful [remove] takes out the first stored entity that equals
    the argument under the equality policy and nothing else: the entities
    before and after it stay, in order, in the same array. *)
Theorem in_memory_remove_first_match w this es equalsFn entity w' :
  arrays w !! entities this = Some es →
  remove (Err := Err) Object_is this entity equalsFn w = Ok true w' →
  ∃ before x after,
    es = before ++ x :: after ∧
    default Object_is equalsFn x entity = true ∧
    Forall (λ y, default Object_is equalsFn y entity = false) before ∧
    arrays w' !! entities this = Some (before ++ after) ∧
    (∀ l, l ≠ entities this → arrays w' !! l = arrays w !! l) ∧
    external w' = external w.
Proof.
  intros H Hrm. rewrite (remove_run _ _ _ _ _ _ H) in Hrm.
  set (p := λ e, default Object_is equalsFn e entity) in *.
  destruct (Z.eqb_spec (findIndex p es) (-1)) as [E|E]; [by inversion Hrm|].
  injection Hrm as <-.
  destruct (findIndex_first p es _ eq_refl E) as (x & Hx & Hpx & Hbefore).
  destruct (findIndex_range p es) as [?|Hr]; [done|].
  exists (take (Z.to_nat (findIndex p es)) es), x,
         (drop (S (Z.to_nat (findIndex p es))) es).
  split; [by rewrite take_drop_middle|]. split; [done|]. split; [done|].
  split.
  { rewrite <-splice_one by done. by eapply overwritten_same. }
  split; [|done]. intros l Hl. by apply overwritten_other.
Qed.

(** X9. Adding an entity that no stored entity equals, and that equals
    itself, and removing it again gives the store back as it was. *)
Theorem in_memory_add_remove_roundtrip w this es equalsFn entity :
  arrays w !! entities this = Some es →
  (∀ e, e ∈ es → default Object_is equalsFn e entity = false) →
  default Object_is equalsFn entity entity = true →
  (_ ← add (Err := Err) this entity;
   remove Object_is this entity equalsFn) w = Ok true w.
Proof.
  intros H Hno Hself.
  rewrite (bind_ok _ _ _ _ _ (add_run _ _ _ entity H)).
  erewrite remove_run; [|by eapply overwritten_same].
  rewrite findIndex_snoc; [|by apply Forall_forall|done].
  destruct (Z.eqb_spec (Z.of_nat (length es)) (-1)); [lia|].
  rewrite splice_one by (rewrite length_app; simpl; lia).
  rewrite Nat2Z.id, take_app_length, drop_ge, app_nil_r
    by (rewrite length_app; simpl; lia).
  by rewrite overwritten_back.
Qed.

(** X10. [getOne] resolves to the first stored entity, in insertion order, that
    satisfies the predicate, and to nothing exactly when no stored entity
    satisfies it; it leaves the store alone. *)
Theorem in_memory_getOne_first w this es (p : Predicate T) :
  arrays w !! entities this = Some es →
  ∃ result,
    getOne (Err := Err) this p w = Ok result w ∧
    match result with
    | Some x =>
        ∃ i : nat, es !! i = Some x ∧ p x = true ∧
          ∀ (j : nat) y, (j < i)%nat → es !! j = Some y → p y = false
    | None => ∀ y, y ∈ es → p y = false
    end.
Proof.
  intros H. exists (List.find p es).
  split; [by apply Array_find_run|apply find_first].
Qed.

(** X11. [clear] binds the backend to a new empty array: the count is 0
    afterwards, and the array it held before, like every other array, is
    left with its content. *)
Theorem in_memory_clear_rebinds w this es :
  arrays w !! entities this = Some es →
  ∃ this' w',
    clear (Err := Err) this w = Ok this' w' ∧
    entities this' ≠ entities this ∧
    arrays w' !! entities this' = Some [] ∧
    count (Err := Err) this' w' = Ok 0 w' ∧
    arrays w' !! entities this = Some es ∧
    (∀ l xs, arrays w !! l = Some xs → arrays w' !! l = Some xs).
Proof.
  intros H. pose proof (lookup_valid _ _ _ H).
  exists (mkSelf (length (arrays w))), (allocated w [[]]).
  split; [done|]. split; [simpl; lia|].
  split; [apply allocated_first|].
  split; [by erewrite count_run; [|apply allocated_first]|].
  split; [by apply allocated_old|].
  intros l xs Hl. by apply allocated_old.
Qed.

(** X12. [find] resolves to a new array, never to the internal one: it holds
    the filter engine's result on the stored entities, the stored entities
    are as before, and whatever the caller then does to the returned array
    the next [find] gives the same content and [count] the same number. *)
Theorem in_memory_find_fresh w this es (options : option (QueryOptions T)) :
  arrays w !! entities this = Some es →
  ∃ r w',
    find (Err := Err) this options w = Ok r w' ∧
    r ≠ entities this ∧
    arrays w !! r = None ∧
    arrays w' !! r = Some (filtered_contents options es) ∧
    arrays w' !! entities this = Some es ∧
    ∀ mutated : list T,
      let w'' := overwritten w' r mutated in
      count (Err := Err) this w'' = Ok (Z.of_nat (length es)) w'' ∧
      ∃ r2 w3,
        find (Err := Err) this options w'' = Ok r2 w3 ∧
        arrays w3 !! r2 = Some (filtered_contents options es).
Proof.
  intros H. pose proof (lookup_valid _ _ _ H) as Hl.
  unfold find. rewrite (applyFunctionalFilters_run _ _ _ _ H).
  assert (∀ r w' ,
    (r = length (arrays w) ∨ r = S (length (arrays w))) →
    arrays w' !! r = Some (filtered_contents options es) →
    arrays w' !! entities this = Some es →
    r ≠ entities this ∧ arrays w !! r = None ∧
    arrays w' !! r = Some (filtered_contents options es) ∧
    arrays w' !! entities this = Some es ∧
    ∀ mutated : list T,
      let w'' := overwritten w' r mutated in
      count (Err := Err) this w'' = Ok (Z.of_nat (length es)) w'' ∧
      ∃ r2 w3,
        applyFunctionalFilters (Err := Err) (entities this) options w''
        = Ok r2 w3 ∧
        arrays w3 !! r2 = Some (filtered_contents options es)) as Hgen.
  { intros r w' Hr Hcontent Hkept.
    split; [lia|]. split; [apply lookup_ge_None; lia|].
    split; [done|]. split; [done|].
    intros mutated w''.
    assert (arrays w'' !! entities this = Some es) as H''.
    { unfold w''. rewrite overwritten_other by lia. done. }
    split; [by apply count_run|].
    by apply applyFunctionalFilters_contents. }
  unfold filtered_contents in *.
  destruct (options ≫= sortBy) as [c|]; eexists _, _; (split; [done|]).
  - apply Hgen; [by right| |by apply allocated_old].
    pose proof (allocated_new w [kept options es; sort c (kept options es)] 1)
      as E.
    by rewrite Nat.add_1_r in E.
  - apply Hgen; [by left|apply allocated_first|by apply allocated_old].
Qed.

(** X13. When no stored entity passes the query, [findPage] resolves to page 1
    of 1 with no items and no neighbours, whatever page was asked for. *)
Theorem in_memory_findPage_nothing_passes w this es (options : QueryOptions T) :
  arrays w !! entities this = Some es →
  (∀ e, e ∈ es → ¬ passes (Some options) e) →
  ∃ r w',
    findPage (Err := Err) this options w = Ok r w' ∧
    page r = 1 ∧ totalItems r = 0 ∧ totalPages r = 1 ∧
    arrays w' !! items r = Some [] ∧
    hasNext r = false ∧ hasPrev r = false.
Proof.
  intros H Hnone.
  destruct (findPage_paginate (Err := Err) w this es options H)
    as (filtered & wf & Hf & ->).
  assert (filtered_contents (Some options) es = []) as E.
  { unfold filtered_contents.
    assert (∀ l : list T,
              (∀ e, e ∈ l → ¬ passes (Some options) e) →
              kept (Some options) l = []) as Hk.
    { intros l Hl. unfold kept. induction l as [|x l IH]; [done|]. simpl.
      destruct (passesb (Some options) x) eqn:Hx.
      - apply passesb_spec in Hx. exfalso. eapply Hl; [|done]. by left.
      - apply IH. intros e He. apply Hl. by right. }
    rewrite (Hk es Hnone).
    by destruct (Some options ≫= sortBy). }
  rewrite E in Hf. by apply paginate_empty.
Qed.

(** X14. Asking [findPage] for page 1, 2, ... up to [totalPages], with the
    same criteria and page size, yields the entities that pass, each
    exactly once and in order: the pages are a partition of the filter
    engine's result. *)
Theorem in_memory_findPage_pages_partition w this es
    (options : QueryOptions T) :
  arrays w !! entities this = Some es →
  ∃ pages : list (list T),
    concat pages = filtered_contents (Some options) es ∧
    ∀ (i : nat) ys,
      pages !! i = Some ys →
      ∃ r w',
        findPage (Err := Err) this
          (mkQueryOptions (Some (Z.of_nat i + 1)) (opt_pageSize options)
             (predicate options) (filters options) (sortBy options)) w
        = Ok r w' ∧
        page r = Z.of_nat i + 1 ∧
        totalPages r = Z.of_nat (length pages) ∧
        arrays w' !! items r = Some ys.
Proof.
  intros H.
  destruct (applyFunctionalFilters_contents (Err := Err) w _ es
              (Some options) H) as (filtered & wf & Hrun & Hf).
  set (xs := filtered_contents (Some options) es) in *.
  set (ps := Z.max 1 (default 10 (opt_pageSize options))).
  set (tp := Z.max 1 (Math_ceil_div (Z.of_nat (length xs)) ps)).
  exists (map (λ i : nat, take (Z.to_nat ps) (drop (i * Z.to_nat ps) xs))
            (seq 0 (Z.to_nat tp))).
  split; [apply pages_cover|]. intros i ys Hi.
  rewrite length_map, length_seq.
  apply list_lookup_fmap_Some in Hi as (j & -> & Hj).
  apply lookup_seq in Hj as [-> Hlt]. simpl.
  destruct (paginate_page_at (Err := Err) wf filtered xs
              (default 10 (opt_pageSize options)) i Hf)
    as (r & w' & Hpage & Hp & Htp & Hitems); [fold ps tp; lia|].
  exists r, w'. split; [|split; [done|split; [|done]]].
  2: { rewrite Htp. unfold tp, ps. lia. }
  unfold findPage.
  assert (applyFunctionalFilters (Err := Err) (entities this)
            (Some (mkQueryOptions (Some (Z.of_nat i + 1))
                     (opt_pageSize options) (predicate options)
                     (filters options) (sortBy options))) w
          = Ok filtered wf) as Hrun'.
  { rewrite <-Hrun. by destruct options. }
  by rewrite (bind_ok _ _ _ _ _ Hrun').
Qed.
End InMemoryMore.

(** ** management-entity.ts *)

Section ManagerMore.
Context {T X X' Err : Type}.
Import ManagementEntity.
Implicit Types (w : World T X) (this : Self (T := T) (X := X) (Err := Err)).

(** X15. Without a native [find] the manager filters what [getAll] resolves
    to, and the result has the content of the in-memory backend's native
    [find] for the same options over the same entities. *)
Theorem findEntities_fallback_matches_in_memory w this
    (options : option (QueryOptions T)) all w1 (es : list T)
    (wm : World T X') (mem : InMemoryEntityStrategy.Self) :
  find (strategy this) = None →
  getAll (strategy this) w = Ok all w1 →
  arrays w1 !! all = Some es →
  arrays wm !! InMemoryEntityStrategy.entities mem = Some es →
  ∃ r w' r' wm' ys,
    findEntities this options w = Ok r w' ∧
    InMemoryEntityStrategy.find (Err := Err) mem options wm = Ok r' wm' ∧
    arrays w' !! r = Some ys ∧
    arrays wm' !! r' = Some ys.
Proof.
  intros Hnone Hall Hes Hm.
  destruct (applyFunctionalFilters_contents (Err := Err) w1 all es options Hes)
    as (r & w' & Hrun & Hr).
  destruct (applyFunctionalFilters_contents (Err := Err) wm _ es options Hm)
    as (r' & wm' & Hrun' & Hr').
  exists r, w', r', wm', (filtered_contents options es).
  split; [|done]. unfold findEntities. rewrite Hnone.
  by rewrite (bind_ok _ _ _ _ _ Hall).
Qed.
End ManagerMore.

(** ** Calls that leave the arrays *)

Section OutsideFacts.
Context {T R Err : Type}.
Implicit Types (w : World T R) (xs : list T).

Lemma outside_ok {A} (m : M R Err A) w a s :
  m (external w) = Ok a s → outside m w = Ok a (mkWorld (arrays w) s).
Proof. intros H. unfold outside. by rewrite H. Qed.

Lemma outside_fault {A} (m : M R Err A) w e s :
  m (external w) = Fault e s → outside m w = Fault e (mkWorld (arrays w) s).
Proof. intros H. unfold outside. by rewrite H. Qed.

Lemma received_ok (m : M R Err (list T)) w xs s :
  m (external w) = Ok xs s →
  received m w = Ok (length (arrays w)) (mkWorld (arrays w ++ [xs]) s).
Proof.
  intros H. unfold received. by rewrite (bind_ok _ _ _ _ _ (outside_ok _ _ _ _ H)).
Qed.

(** The filter engine allocates arrays and touches nothing outside them. *)
Lemma applyFunctionalFilters_outside w l xs (options : option (QueryOptions T)) :
  arrays w !! l = Some xs →
  ∃ r w',
    applyFunctionalFilters (Err := Err) l options w = Ok r w' ∧
    arrays w' !! r = Some (filtered_contents options xs) ∧
    external w' = external w.
Proof.
  intros H. rewrite (applyFunctionalFilters_run _ _ _ _ H).
  unfold filtered_contents.
  destruct (options ≫= sortBy) as [c|]; eexists _, _; (split; [done|]);
    (split; [|done]).
  - pose proof (allocated_new w [kept options xs; sort c (kept options xs)] 1) as E.
    by rewrite Nat.add_1_r in E.
  - apply allocated_first.
Qed.


End OutsideFacts.

(** ** strategies/typeorm.strategy.ts *)

Section TypeOrmMore.
Context {V R Err FindOptions : Type}.
Import TypeOrmEntityStrategy.
Variable Object_is : gmap string V → gmap string V → bool.
Implicit Types (this : Self (V := V) (R := R) (Err := Err)
                         (FindOptions := FindOptions)).
Implicit Types (s : R) (equalsFn : option (gmap string V → gmap string V → bool)).
Implicit Types (a b : gmap string V).

(** X16. What [remove] resolves to, case by case.  When the repository's
    [remove] does not fault the result is [true] and nothing is scanned,
    whatever the equality policy.  When it faults, that fault is dropped:
    a fault of the scan or of the second [remove] is what propagates. *)
Theorem typeorm_remove_cases this entity equalsFn s :
  match repo_remove (repo this) entity s with
  | Ok _ s1 => remove Object_is this entity equalsFn s = Ok true s1
  | Fault _ s1 =>
      match repo_find (repo this) None s1 with
      | Fault e s2 => remove Object_is this entity equalsFn s = Fault e s2
      | Ok all s2 =>
          match List.find (λ x, default Object_is equalsFn x entity) all with
          | None => remove Object_is this entity equalsFn s = Ok false s2
          | Some match_ =>
              match repo_remove (repo this) match_ s2 with
              | Ok _ s3 =>
                  remove Object_is this entity equalsFn s = Ok true s3
              | Fault e s3 =>
                  remove Object_is this entity equalsFn s = Fault e s3
              end
          end
      end
  end.
Proof.
  unfold remove.
  destruct (repo_remove (repo this) entity s) as [u s1|e s1] eqn:Hprimary.
  { apply try_catch_ok. by rewrite (bind_ok _ _ _ _ _ Hprimary). }
  erewrite try_catch_fault; [|by eapply bind_fault].
  destruct (repo_find (repo this) None s1) as [all s2|e' s2] eqn:Hscan.
  - rewrite (bind_ok _ _ _ _ _ Hscan).
    destruct (List.find _ all) as [m|]; [|done].
    destruct (repo_remove (repo this) m s2) as [u s3|e' s3] eqn:Hsecond.
    + by rewrite (bind_ok _ _ _ _ _ Hsecond).
    + by rewrite (bind_fault _ _ _ _ _ Hsecond).
  - by rewrite (bind_fault _ _ _ _ _ Hscan).
Qed.

End TypeOrmMore.

Section TypeOrmQueryFacts.
Context {V R Err Any X' : Type}.
Import TypeOrmQueries.
Variable truthy : Any → bool.
Implicit Types (this : Self (V := V) (R := R) (Err := Err) (Any := Any)).
Implicit Types (options : TypeOrmQueryOptions (V := V) (Any := Any)).
Implicit Types (w : World (gmap string V) R).




(** X20. [find] sends the repository its own options only when one of them is
    truthy, and never a [skip] or [take]; what it returns is the filter
    engine's result on the repository's answer, the same content the
    in-memory [find] gives over those rows. *)
Theorem typeorm_find_matches_in_memory this
    (options : option (TypeOrmQueryOptions (V := V) (Any := Any))) w
    (rows : list (gmap string V)) s'
    (wm : World (gmap string V) X') (mem : InMemoryEntityStrategy.Self) :
  TypeOrmEntityStrategy.repo_find (repo this)
    (if is_set truthy (options ≫= where_) || is_set truthy (options ≫= order)
        || is_set truthy (options ≫= relations)
        || is_set truthy (options ≫= select)
     then Some (mkFindMany (options ≫= where_) (options ≫= order)
                  (options ≫= relations) (options ≫= select) None None)
     else None)
    (external w) = Ok rows s' →
  arrays wm !! InMemoryEntityStrategy.entities mem = Some rows →
  ∃ r w' r' wm' ys,
    find truthy this options w = Ok r w' ∧
    external w' = s' ∧
    InMemoryEntityStrategy.find (Err := Err) mem (query <$> options) wm
    = Ok r' wm' ∧
    arrays w' !! r = Some ys ∧
    arrays wm' !! r' = Some ys.
Proof.
  intros Hdb Hm. unfold find.
  destruct (is_set truthy (options ≫= where_) || is_set truthy (options ≫= order)
            || is_set truthy (options ≫= relations)
            || is_set truthy (options ≫= select));
    rewrite (bind_ok _ _ _ _ _ (received_ok _ _ _ _ Hdb));
    (edestruct (applyFunctionalFilters_outside (Err := Err)
                  (mkWorld (arrays w ++ [rows]) s')
                  (length (arrays w)) rows (query <$> options))
       as (r & w' & Hrun & Hr & Hext); [by apply list_lookup_middle|]);
    (destruct (applyFunctionalFilters_contents (Err := Err) wm _ rows
                 (query <$> options) Hm) as (r' & wm' & Hrun' & Hr'));
    by exists r, w', r', wm', (filtered_contents (query <$> options) rows).
Qed.
End TypeOrmQueryFacts.

(** ** strategies/sql.strategy.ts *)

Section SqlQueryFacts.
Context {T R Err X' : Type}.
Import SqlQueries.
Implicit Types (this : Self (T := T) (R := R) (Err := Err)).
Implicit Types (w : World T R).

Lemma sql_find_run this (options : option (QueryOptions T)) w items s' :
  match adapter_select this with
  | Some select => select options (external w) = Ok items s'
  | None =>
      SqlEntityStrategy.adapter_selectAll (adapter this) (external w)
      = Ok items s'
  end →
  ∃ r w',
    find this options w = Ok r w' ∧
    arrays w' !! r = Some (filtered_contents options items) ∧
    external w' = s'.
Proof.
  intros Hsel. unfold find.
  destruct (adapter_select this) as [select|];
    rewrite (bind_ok _ _ _ _ _ (received_ok _ _ _ _ Hsel));
    by apply applyFunctionalFilters_outside, list_lookup_middle.
Qed.

(** X21. [find] applies the functional criteria to whatever the adapter's
    native [select] resolves to.  When that [select] has already applied
    them, the second application changes nothing: the result has the
    content the native [select] returned. *)
Theorem sql_find_after_native_select this
    (options : option (QueryOptions T)) w select items s' :
  adapter_select this = Some select →
  select options (external w) = Ok items s' →
  ∃ r w',
    find this options w = Ok r w' ∧
    external w' = s' ∧
    arrays w' !! r = Some (filtered_contents options items) ∧
    ∀ es,
      items = filtered_contents options es →
      (∀ c, options ≫= sortBy = Some c → consistent_comparator c) →
      arrays w' !! r = Some items.
Proof.
  intros Hsome Hsel.
  destruct (sql_find_run this options w items s') as (r & w' & Hrun & Hr & Hext).
  { by rewrite Hsome. }
  exists r, w'. split; [done|]. split; [done|]. split; [done|].
  intros es -> Hc. by rewrite Hr, filtered_contents_twice.
Qed.

(** X22. Without a native [selectPage] and [select], [findPage] is the filter
    engine and [paginate] over what [selectAll] resolves to: its items and
    every field are those of the in-memory backend's [findPage] for the
    same options over the same entities. *)
Theorem sql_findPage_fallback_matches_in_memory this
    (options : QueryOptions T) w (es : list T) s'
    (wm : World T X') (mem : InMemoryEntityStrategy.Self) :
  adapter_selectPage this = None →
  adapter_select this = None →
  SqlEntityStrategy.adapter_selectAll (adapter this) (external w) = Ok es s' →
  arrays wm !! InMemoryEntityStrategy.entities mem = Some es →
  ∃ r w' r' wm' ys,
    findPage this options w = Ok r w' ∧
    InMemoryEntityStrategy.findPage (Err := Err) mem options wm = Ok r' wm' ∧
    arrays w' !! items r = Some ys ∧
    arrays wm' !! items r' = Some ys ∧
    page r = page r' ∧ pageSize r = pageSize r' ∧
    totalItems r = totalItems r' ∧ totalPages r = totalPages r' ∧
    hasNext r = hasNext r' ∧ hasPrev r = hasPrev r'.
Proof.
  intros Hnopage Hnoselect Hall Hm.
  destruct (sql_find_run this (Some options) w es s')
    as (filtered & w1 & Hfind & Hf & _).
  { by rewrite Hnoselect. }
  destruct (findPage_paginate (Err := Err) wm mem es options Hm)
    as (filtered' & wf & Hf' & ->).
  unfold findPage. rewrite Hnopage, (bind_ok _ _ _ _ _ Hfind).
  rewrite (paginate_run _ _ _ _ _ Hf), (paginate_run _ _ _ _ _ Hf').
  cbn [default from_option id].
  rewrite !(Z.max_r 1 (Z.max 1 _)) by lia.
  eexists _, _, _, _, _. split; [done|]. split; [done|].
  split; [by apply list_lookup_middle|].
  split; [by apply list_lookup_middle|]. done.
Qed.

End SqlQueryFacts.

(** * Worked instances of the further properties *)

Import Samples QuerySamples.
Open Scope Z_scope.

Lemma paginate_pages_partition_witness :
  let xs := [1; 2; 3; 4; 5] in
  arrays (numbers xs) !! 0%nat = Some xs ∧
  ∃ pages : list (list Z),
    concat pages = xs ∧
    Z.of_nat (length pages) = 3 ∧
    ∀ (i : nat) ys,
      pages !! i = Some ys →
      ∃ r w',
        paginate (Err := string) 0%nat (Some (Z.of_nat i + 1)) (Some 2)
          (numbers xs) = Ok r w' ∧
        page r = Z.of_nat i + 1 ∧
        arrays w' !! items r = Some ys.
Proof.
  intros xs. split; [reflexivity|].
  destruct (paginate_pages_partition (Err := string) (numbers xs) 0%nat xs 2
              eq_refl) as (pages & Hcat & Hlen & Hpages).
  exists pages. split; [exact Hcat|]. split; [exact Hlen|].
  intros i ys Hi.
  destruct (Hpages i ys Hi) as (r & w' & Hrun & Hp & _ & Hitems).
  exists r, w'. split; [exact Hrun|]. split; [exact Hp|exact Hitems].
Defined.

Lemma paginate_neighbours_witness :
  let xs := [1; 2; 3; 4; 5] in
  let r := mkPageResult 1%nat 2 2 5 3 true true in
  let w' := allocated (numbers xs) [[3; 4]] in
  arrays (numbers xs) !! 0%nat = Some xs ∧
  paginate (Err := string) 0%nat (Some 2) (Some 2) (numbers xs) = Ok r w' ∧
  (∃ r2 w2,
     paginate (Err := string) 0%nat (Some 3) (Some 2) (numbers xs)
     = Ok r2 w2 ∧
     page r2 = 3 ∧ arrays w2 !! items r2 = Some [5]) ∧
  (∃ r0 w0,
     paginate (Err := string) 0%nat (Some 1) (Some 2) (numbers xs)
     = Ok r0 w0 ∧
     page r0 = 1 ∧ arrays w0 !! items r0 = Some [1; 2]).
Proof.
  intros xs r w'.
  assert (paginate (Err := string) 0%nat (Some 2) (Some 2) (numbers xs)
          = Ok r w') as Hrun by (vm_compute; reflexivity).
  split; [reflexivity|]. split; [exact Hrun|].
  destruct (paginate_neighbours (Err := string) (numbers xs) 0%nat xs 2 2
              r w' eq_refl Hrun) as [Hnext Hprev].
  split.
  - destruct (Hnext eq_refl) as (r2 & w2 & ys & Hrun2 & Hp & _ & Hitems & _).
    exists r2, w2. split; [exact Hrun2|]. split; [exact Hp|].
    vm_compute in Hrun2. injection Hrun2 as <- <-. reflexivity.
  - destruct (Hprev eq_refl) as (r0 & w0 & ys & Hrun0 & Hp & _ & Hitems & _).
    exists r0, w0. split; [exact Hrun0|]. split; [exact Hp|].
    vm_compute in Hrun0. injection Hrun0 as <- <-. reflexivity.
Defined.

Lemma applyFunctionalFilters_without_criteria_witness :
  let xs := [3; 1; 2] in
  arrays (numbers xs) !! 0%nat = Some xs ∧
  ∃ r w',
    applyFunctionalFilters (Err := string) 0%nat None (numbers xs) = Ok r w' ∧
    r ≠ 0%nat ∧
    arrays w' !! r = Some xs ∧
    arrays w' !! 0%nat = Some xs.
Proof.
  intros xs. split; [reflexivity|].
  exact (applyFunctionalFilters_without_criteria (Err := string) (numbers xs)
           0%nat xs None eq_refl eq_refl (or_introl eq_refl) eq_refl).
Defined.

Lemma applyFunctionalFilters_twice_witness :
  let xs := [5; 3; 8; 1; 9; 2; 7] in
  let options :=
    Some (mkQueryOptions None None (Some (λ n : Z, 2 <? n)) None
            (Some Z.sub)) in
  arrays (numbers xs) !! 0%nat = Some xs ∧
  consistent_comparator Z.sub ∧
  ∃ r w' r2 w2,
    applyFunctionalFilters (Err := string) 0%nat options (numbers xs)
    = Ok r w' ∧
    applyFunctionalFilters (Err := string) r options w' = Ok r2 w2 ∧
    arrays w' !! r = Some [3; 5; 7; 8; 9] ∧
    arrays w2 !! r2 = Some [3; 5; 7; 8; 9].
Proof.
  intros xs options. split; [reflexivity|]. split; [exact Z_sub_consistent|].
  destruct (applyFunctionalFilters_twice (Err := string) (numbers xs) 0%nat
              xs options eq_refl) as (r & w' & r2 & w2 & ys & H1 & H2 & Hr & Hr2).
  { intros c [= <-]. exact Z_sub_consistent. }
  exists r, w', r2, w2. split; [exact H1|]. split; [exact H2|].
  assert (ys = [3; 5; 7; 8; 9]) as <-; [|by split].
  vm_compute in H1. injection H1 as <- <-.
  vm_compute in Hr. by injection Hr as <-.
Defined.

Lemma applyFunctionalFilters_conjunction_witness :
  let xs := [5; 3; 8; 1; 9; 2; 7] in
  let options :=
    Some (mkQueryOptions None None (Some (λ n : Z, 2 <? n)) (Some [Z.odd])
            None) in
  let options' :=
    Some (mkQueryOptions None None None (Some [Z.odd; λ n : Z, 2 <? n])
            None) in
  arrays (numbers xs) !! 0%nat = Some xs ∧
  (∀ e, passes options e ↔ passes options' e) ∧
  ∃ r w1 r' w2,
    applyFunctionalFilters (Err := string) 0%nat options (numbers xs)
    = Ok r w1 ∧
    applyFunctionalFilters (Err := string) 0%nat options' (numbers xs)
    = Ok r' w2 ∧
    arrays w1 !! r = Some [5; 3; 9; 7] ∧
    arrays w2 !! r' = Some [5; 3; 9; 7].
Proof.
  intros xs options options'.
  assert (∀ e, passes options e ↔ passes options' e) as Hsame.
  { intros e. rewrite <-!passesb_spec. unfold passesb. simpl.
    destruct (2 <? e), (Z.odd e); simpl; tauto. }
  split; [reflexivity|]. split; [exact Hsame|].
  destruct (applyFunctionalFilters_conjunction (Err := string) (numbers xs)
              0%nat xs options options' eq_refl Hsame eq_refl)
    as (r & w1 & r' & w2 & ys & H1 & H2 & Hr & Hr').
  exists r, w1, r', w2. split; [exact H1|]. split; [exact H2|].
  assert (ys = [5; 3; 9; 7]) as <-; [|by split].
  vm_compute in H1. injection H1 as <- <-.
  vm_compute in Hr. by injection Hr as <-.
Defined.

Lemma in_memory_add_appends_witness :
  let this := InMemoryEntityStrategy.mkSelf 0%nat in
  let w := numbers [1; 2] in
  arrays w !! 0%nat = Some [1; 2] ∧
  InMemoryEntityStrategy.getOne (Err := string) this Z.even w
  = Ok (Some 2) w ∧
  ∃ w',
    InMemoryEntityStrategy.add (Err := string) this 4 w = Ok () w' ∧
    arrays w' !! 0%nat = Some [1; 2; 4] ∧
    InMemoryEntityStrategy.getOne (Err := string) this Z.even w'
    = Ok (Some 2) w'.
Proof.
  intros this w. split; [reflexivity|]. split; [reflexivity|].
  destruct (in_memory_add_appends (Err := string) w this [1; 2] 4 Z.even
              eq_refl) as (w' & Hadd & Hstored & _ & Hfound & _).
  exists w'. split; [exact Hadd|]. split; [exact Hstored|].
  apply Hfound. reflexivity.
Defined.

Lemma in_memory_remove_first_match_witness :
  let this := InMemoryEntityStrategy.mkSelf 0%nat in
  let es := [1; 2; 3; 2] in
  arrays (numbers es) !! 0%nat = Some es ∧
  InMemoryEntityStrategy.remove (Err := string) Z.eqb this 2 None (numbers es)
  = Ok true (numbers [1; 3; 2]) ∧
  ∃ before x after,
    es = (before ++ x :: after)%list ∧
    Z.eqb x 2 = true ∧
    Forall (λ y, Z.eqb y 2 = false) before ∧
    arrays (numbers [1; 3; 2]) !! 0%nat = Some (before ++ after)%list.
Proof.
  intros this es. split; [reflexivity|]. split; [reflexivity|].
  destruct (in_memory_remove_first_match (Err := string) Z.eqb (numbers es)
              this es None 2 (numbers [1; 3; 2]) eq_refl eq_refl)
    as (before & x & after & Hes & Hx & Hbefore & Hstored & _).
  by exists before, x, after.
Defined.

Lemma in_memory_add_remove_roundtrip_witness :
  let this := InMemoryEntityStrategy.mkSelf 0%nat in
  let w := numbers [1; 2; 3] in
  arrays w !! 0%nat = Some [1; 2; 3] ∧
  (∀ e, e ∈ [1; 2; 3] → Z.eqb e 9 = false) ∧
  Z.eqb 9 9 = true ∧
  (_ ← InMemoryEntityStrategy.add (Err := string) this 9;
   InMemoryEntityStrategy.remove Z.eqb this 9 None) w = Ok true w.
Proof.
  intros this w.
  assert (∀ e, e ∈ [1; 2; 3] → Z.eqb e 9 = false) as Hno.
  { apply Forall_forall. repeat constructor. }
  split; [reflexivity|]. split; [exact Hno|]. split; [reflexivity|].
  exact (in_memory_add_remove_roundtrip (Err := string) Z.eqb w this
           [1; 2; 3] None 9 eq_refl Hno eq_refl).
Defined.

Lemma in_memory_getOne_first_witness :
  let this := InMemoryEntityStrategy.mkSelf 0%nat in
  let w := numbers [1; 2; 3; 4] in
  arrays w !! 0%nat = Some [1; 2; 3; 4] ∧
  InMemoryEntityStrategy.getOne (Err := string) this Z.even w
  = Ok (Some 2) w ∧
  InMemoryEntityStrategy.getOne (Err := string) this (λ n, 9 <? n) w
  = Ok None w.
Proof.
  intros this w. split; [reflexivity|].
  destruct (in_memory_getOne_first (Err := string) w this [1; 2; 3; 4]
              Z.even eq_refl) as (found & Hrun & _).
  destruct (in_memory_getOne_first (Err := string) w this [1; 2; 3; 4]
              (λ n, 9 <? n) eq_refl) as (none & Hrun' & _).
  split.
  - rewrite Hrun. vm_compute in Hrun. by injection Hrun as <-.
  - rewrite Hrun'. vm_compute in Hrun'. by injection Hrun' as <-.
Defined.

Lemma in_memory_clear_rebinds_witness :
  let this := InMemoryEntityStrategy.mkSelf 0%nat in
  let w := numbers [1; 2; 3] in
  arrays w !! 0%nat = Some [1; 2; 3] ∧
  ∃ this' w',
    InMemoryEntityStrategy.clear (Err := string) this w = Ok this' w' ∧
    InMemoryEntityStrategy.entities this' = 1%nat ∧
    InMemoryEntityStrategy.count (Err := string) this' w' = Ok 0 w' ∧
    arrays w' !! 0%nat = Some [1; 2; 3].
Proof.
  intros this w. split; [reflexivity|].
  destruct (in_memory_clear_rebinds (Err := string) w this [1; 2; 3] eq_refl)
    as (this' & w' & Hrun & _ & _ & Hcount & Hold & _).
  exists this', w'. split; [exact Hrun|].
  split; [|split; [exact Hcount|exact Hold]].
  vm_compute in Hrun. by injection Hrun as <- <-.
Defined.

Lemma in_memory_find_fresh_witness :
  let this := InMemoryEntityStrategy.mkSelf 0%nat in
  let es := [5; 3; 8] in
  let options := Some (mkQueryOptions None None None None (Some Z.sub)) in
  arrays (numbers es) !! 0%nat = Some es ∧
  ∃ r w',
    InMemoryEntityStrategy.find (Err := string) this options (numbers es)
    = Ok r w' ∧
    r ≠ 0%nat ∧
    arrays w' !! r = Some [3; 5; 8] ∧
    arrays w' !! 0%nat = Some es ∧
    InMemoryEntityStrategy.count (Err := string) this (overwritten w' r [])
    = Ok 3 (overwritten w' r []).
Proof.
  intros this es options. split; [reflexivity|].
  destruct (in_memory_find_fresh (Err := string) (numbers es) this es options
              eq_refl) as (r & w' & Hrun & Hne & _ & Hcontent & Hkept & Hmut).
  exists r, w'. split; [exact Hrun|]. split; [exact Hne|].
  split; [exact Hcontent|]. split; [exact Hkept|].
  exact (proj1 (Hmut [])).
Defined.

Lemma in_memory_findPage_nothing_passes_witness :
  let this := InMemoryEntityStrategy.mkSelf 0%nat in
  let es := [1; 3; 5] in
  let options := mkQueryOptions (Some 4) (Some 2) (Some Z.even) None None in
  arrays (numbers es) !! 0%nat = Some es ∧
  (∀ e, e ∈ es → ¬ passes (Some options) e) ∧
  ∃ r w',
    InMemoryEntityStrategy.findPage (Err := string) this options (numbers es)
    = Ok r w' ∧
    page r = 1 ∧ totalItems r = 0 ∧ totalPages r = 1 ∧
    arrays w' !! items r = Some [] ∧
    hasNext r = false ∧ hasPrev r = false.
Proof.
  intros this es options.
  assert (∀ e, e ∈ es → ¬ passes (Some options) e) as Hnone.
  { intros e He Hp. apply passesb_spec in Hp.
    repeat (apply elem_of_cons in He as [->|He]; [vm_compute in Hp; discriminate|]).
    by apply elem_of_nil in He. }
  split; [reflexivity|]. split; [exact Hnone|].
  exact (in_memory_findPage_nothing_passes (Err := string) (numbers es) this
           es options eq_refl Hnone).
Defined.

Lemma findEntities_fallback_matches_in_memory_witness :
  let this := ManagementEntity.mkSelf (plain_strategy 0%nat) Z.eqb in
  let mem := InMemoryEntityStrategy.mkSelf 0%nat in
  let es := [5; 3; 8; 1] in
  let options :=
    Some (mkQueryOptions None None (Some (λ n : Z, 2 <? n)) None
            (Some Z.sub)) in
  ManagementEntity.find (ManagementEntity.strategy this) = None ∧
  ManagementEntity.getAll (ManagementEntity.strategy this) (numbers es)
  = Ok 1%nat (allocated (numbers es) [es]) ∧
  arrays (numbers es) !! 0%nat = Some es ∧
  ∃ r w' r' wm',
    ManagementEntity.findEntities this options (numbers es) = Ok r w' ∧
    InMemoryEntityStrategy.find (Err := string) mem options (numbers es)
    = Ok r' wm' ∧
    arrays w' !! r = Some [3; 5; 8] ∧
    arrays wm' !! r' = Some [3; 5; 8].
Proof.
  intros this mem es options.
  split; [reflexivity|]. split; [reflexivity|]. split; [reflexivity|].
  destruct (findEntities_fallback_matches_in_memory (X' := ())
              (numbers es) this options 1%nat (allocated (numbers es) [es])
              es (numbers es) mem eq_refl eq_refl eq_refl eq_refl)
    as (r & w' & r' & wm' & ys & Hrun & Hrun' & Hr & Hr').
  exists r, w', r', wm'. split; [exact Hrun|]. split; [exact Hrun'|].
  assert (ys = [3; 5; 8]) as <-; [|by split].
  vm_compute in Hrun'. injection Hrun' as <- <-.
  vm_compute in Hr'. by injection Hr' as <-.
Defined.



Lemma typeorm_find_matches_in_memory_witness :
  let rows := [row 1; row 2; row 3] in
  let options :=
    Some (TypeOrmQueries.mkOptions
            (mkQueryOptions None None (Some (λ e, negb (has_id 2 e))) None
               None)
            None None None None) in
  let w : World (gmap string Z) (list (gmap string Z)) := mkWorld [] rows in
  let wm : World (gmap string Z) () := mkWorld [rows] () in
  let mem := InMemoryEntityStrategy.mkSelf 0%nat in
  TypeOrmEntityStrategy.repo_find (TypeOrmQueries.repo table_strategy) None
    rows = Ok rows rows ∧
  arrays wm !! 0%nat = Some rows ∧
  ∃ r w' r' wm',
    TypeOrmQueries.find (λ _ : (), true) table_strategy options w = Ok r w' ∧
    InMemoryEntityStrategy.find (Err := string) mem
      (TypeOrmQueries.query <$> options) wm = Ok r' wm' ∧
    arrays w' !! r = Some [row 1; row 3] ∧
    arrays wm' !! r' = Some [row 1; row 3].
Proof.
  intros rows options w wm mem.
  split; [reflexivity|]. split; [reflexivity|].
  destruct (typeorm_find_matches_in_memory (λ _ : (), true) table_strategy
              options w rows rows wm mem eq_refl eq_refl)
    as (r & w' & r' & wm' & ys & Hrun & _ & Hrun' & Hr & Hr').
  exists r, w', r', wm'. split; [exact Hrun|]. split; [exact Hrun'|].
  assert (ys = [row 1; row 3]) as <-; [|by split].
  destruct (applyFunctionalFilters_contents (Err := string) wm 0%nat rows
              (TypeOrmQueries.query <$> options) eq_refl)
    as (r0 & w0 & Hrun0 & Hr0).
  unfold InMemoryEntityStrategy.find in Hrun'.
  change (InMemoryEntityStrategy.entities mem) with 0%nat in Hrun'.
  rewrite Hrun0 in Hrun'. injection Hrun' as <- <-.
  rewrite Hr0 in Hr'. injection Hr' as <-.
  set (q := TypeOrmQueries.query <$> options).
  assert (passesb q (row 1) = true) as E1 by (vm_compute; reflexivity).
  assert (passesb q (row 2) = false) as E2 by (vm_compute; reflexivity).
  assert (passesb q (row 3) = true) as E3 by (vm_compute; reflexivity).
  change (List.filter (passesb q) [row 1; row 2; row 3] = [row 1; row 3]).
  cbn [List.filter]. by rewrite E1, E2, E3.
Defined.

Lemma sql_find_after_native_select_witness :
  let options :=
    Some (mkQueryOptions None None (Some (λ n : Z, 2 <? n)) None
            (Some Z.sub)) in
  let w : World Z (list Z) := mkWorld [] [5; 3; 8; 1] in
  SqlQueries.adapter_select native_queries
  = Some (λ options rows, Ok (filtered_contents options rows) rows) ∧
  filtered_contents options [5; 3; 8; 1] = [3; 5; 8] ∧
  ∃ r w',
    SqlQueries.find native_queries options w = Ok r w' ∧
    external w' = [5; 3; 8; 1] ∧
    arrays w' !! r = Some [3; 5; 8].
Proof.
  intros options w. split; [reflexivity|]. split; [reflexivity|].
  destruct (sql_find_after_native_select native_queries options w
              (λ options rows, Ok (filtered_contents options rows) rows)
              [3; 5; 8] [5; 3; 8; 1] eq_refl eq_refl)
    as (r & w' & Hrun & Hext & _ & Hsame).
  exists r, w'. split; [exact Hrun|]. split; [exact Hext|].
  apply (Hsame [5; 3; 8; 1]); [reflexivity|].
  intros c [= <-]. exact Z_sub_consistent.
Defined.

Lemma sql_findPage_fallback_matches_in_memory_witness :
  let es := [5; 3; 8; 1; 9; 2; 7] in
  let options :=
    mkQueryOptions (Some 2) (Some 2) (Some (λ n : Z, 2 <? n)) None
      (Some Z.sub) in
  let w : World Z (list Z) := mkWorld [] es in
  let mem := InMemoryEntityStrategy.mkSelf 0%nat in
  SqlQueries.adapter_selectPage plain_queries = None ∧
  SqlQueries.adapter_select plain_queries = None ∧
  SqlEntityStrategy.adapter_selectAll (SqlQueries.adapter plain_queries) es
  = Ok es es ∧
  arrays (numbers es) !! 0%nat = Some es ∧
  ∃ r w' r' wm',
    SqlQueries.findPage plain_queries options w = Ok r w' ∧
    InMemoryEntityStrategy.findPage (Err := string) mem options (numbers es)
    = Ok r' wm' ∧
    arrays w' !! items r = Some [7; 8] ∧
    arrays wm' !! items r' = Some [7; 8] ∧
    page r = 2 ∧ page r' = 2 ∧ totalItems r = 5 ∧ totalItems r' = 5.
Proof.
  intros es options w mem.
  split; [reflexivity|]. split; [reflexivity|]. split; [reflexivity|].
  split; [reflexivity|].
  destruct (sql_findPage_fallback_matches_in_memory (X' := ()) plain_queries
              options w es es (numbers es) mem eq_refl eq_refl eq_refl eq_refl)
    as (r & w' & r' & wm' & ys & Hrun & Hrun' & Hi & Hi' & Hp & _ & Hti & _).
  exists r, w', r', wm'. split; [exact Hrun|]. split; [exact Hrun'|].
  vm_compute in Hrun'. injection Hrun' as <- <-.
  vm_compute in Hi'. injection Hi' as <-.
  rewrite Hp, Hti. repeat split; (exact Hi || reflexivity).
Defined.


Lemma paginate_single_page_witness :
  let xs := [4; 5; 6] in
  arrays (numbers xs) !! 0%nat = Some xs ∧
  Z.of_nat (length xs) ≤ Z.max 1 10 ∧
  ∃ r w',
    paginate (Err := string) 0%nat (Some 7) (Some 10) (numbers xs) = Ok r w' ∧
    page r = 1 ∧ totalPages r = 1 ∧
    arrays w' !! items r = Some xs ∧
    hasNext r = false ∧ hasPrev r = false.
Proof.
  intros xs.
  assert (Z.of_nat (length xs) ≤ Z.max 1 10) as Hfit by (simpl; lia).
  split; [reflexivity|]. split; [exact Hfit|].
  exact (paginate_single_page (Err := string) (numbers xs) 0%nat xs 7 10
           eq_refl Hfit).
Defined.

Lemma in_memory_findPage_pages_partition_witness :
  let this := InMemoryEntityStrategy.mkSelf 0%nat in
  let es := [5; 3; 8; 1; 9; 2; 7] in
  let options :=
    mkQueryOptions None (Some 2) (Some (λ n : Z, 2 <? n)) None (Some Z.sub) in
  arrays (numbers es) !! 0%nat = Some es ∧
  ∃ pages : list (list Z),
    concat pages = [3; 5; 7; 8; 9] ∧
    ∀ (i : nat) ys,
      pages !! i = Some ys →
      ∃ r w',
        InMemoryEntityStrategy.findPage (Err := string) this
          (mkQueryOptions (Some (Z.of_nat i + 1)) (Some 2)
             (Some (λ n : Z, 2 <? n)) None (Some Z.sub)) (numbers es)
        = Ok r w' ∧
        page r = Z.of_nat i + 1 ∧
        arrays w' !! items r = Some ys.
Proof.
  intros this es options. split; [reflexivity|].
  destruct (in_memory_findPage_pages_partition (Err := string) (numbers es)
              this es options eq_refl) as (pages & Hcat & Hpages).
  exists pages. split; [exact Hcat|].
  intros i ys Hi.
  destruct (Hpages i ys Hi) as (r & w' & Hrun & Hp & _ & Hitems).
  exists r, w'. split; [exact Hrun|]. split; [exact Hp|exact Hitems].
Defined.
